(** * Job-Application-Bot: ingestion, normalization and matching pipeline

    A shallow embedding of the pure core of the pipeline
    (app/parsing, app/ingestion/base.py, app/matching, app/tasks/jobs.py)
    together with the properties stated about it.

    Modelling conventions.
    - Python [str] values are Rocq [string]s, read as ASCII text.  The only
      non-ASCII characters the code mentions, the en dash and the em dash of
      the salary pattern, appear as their UTF-8 byte sequences.
    - Python exceptions are the [Raise] results of the [result] type.
    - A [float] produced by [float(...)] in [_to_int] is an exact binary64
      value, kept as a mantissa and a binary exponent.
    - The scores of the matching engine are real numbers. *)

From Stdlib Require Import ZArith QArith Lia List Bool Ascii String DecimalString.
From Stdlib Require Import Reals Lra Sorted Permutation.
From stdpp Require Import gmap strings list fin_maps.

#[local] Set Warnings "-register-all".
#[local] Open Scope string_scope.
#[local] Open Scope Z_scope.

(** ** Exceptions *)

Inductive exn : Type :=
| OverflowError
| TypeError
| IndexError
| KeyError
| ValueError (msg : string).

Inductive result (A : Type) : Type :=
| Ok (a : A)
| Raise (e : exn).

Arguments Ok {A} a.
Arguments Raise {A} e.

Definition bind {A B : Type} (r : result A) (k : A -> result B) : result B :=
  match r with
  | Ok a => k a
  | Raise e => Raise e
  end.

Notation "'let*' x ':=' r 'in' k" := (bind r (fun x => k))
  (at level 10, x name, r at level 100, k at level 200).

Definition returns {A : Type} (r : result A) : Prop :=
  match r with Ok _ => True | Raise _ => False end.

(** ** Characters and strings, as [str] methods use them *)

Module Text.

Definition code (c : ascii) : nat := nat_of_ascii c.

Definition between (lo hi : nat) (c : ascii) : bool :=
  (Nat.leb lo (code c)) && (Nat.leb (code c) hi).

(** [\d] on ASCII text. *)
Definition is_digit (c : ascii) : bool := between 48 57 c.

(** [str.isspace] and [\s] on ASCII text: tab, line feed, vertical tab,
    form feed, carriage return, the four separators 28..31, and space. *)
Definition is_space (c : ascii) : bool :=
  between 9 13 c || between 28 32 c.

Definition is_upper (c : ascii) : bool := between 65 90 c.

Definition lower_char (c : ascii) : ascii :=
  if is_upper c then ascii_of_nat (code c + 32) else c.

(** [s.lower()] *)
Fixpoint lower (s : string) : string :=
  match s with
  | EmptyString => EmptyString
  | String c s' => String (lower_char c) (lower s')
  end.

(** The longest prefix of [s] whose characters satisfy [p], and the rest. *)
Fixpoint span (p : ascii -> bool) (s : string) : string * string :=
  match s with
  | EmptyString => (EmptyString, EmptyString)
  | String c s' =>
      if p c then let '(a, b) := span p s' in (String c a, b)
      else (EmptyString, s)
  end.

Definition lstrip (s : string) : string := snd (span is_space s).

Fixpoint rev_app (s acc : string) : string :=
  match s with
  | EmptyString => acc
  | String c s' => rev_app s' (String c acc)
  end.

Definition rev (s : string) : string := rev_app s EmptyString.

Definition rstrip (s : string) : string := rev (lstrip (rev s)).

(** [s.strip()] *)
Definition strip (s : string) : string := rstrip (lstrip s).

Fixpoint starts_with (p s : string) : bool :=
  match p, s with
  | EmptyString, _ => true
  | String a p', String b s' => Ascii.eqb a b && starts_with p' s'
  | String _ _, EmptyString => false
  end.

(** [p in s] for two strings. *)
Fixpoint contains (p s : string) : bool :=
  starts_with p s ||
  match s with
  | EmptyString => false
  | String _ s' => contains p s'
  end.

(** [bool(s)] for a string. *)
Definition nonempty (s : string) : bool :=
  match s with EmptyString => false | String _ _ => true end.

(** [s.split(sep)] for a separator test on single characters; as in Python
    the result always has at least one piece. *)
Fixpoint split_on (p : ascii -> bool) (s : string) : list string :=
  match s with
  | EmptyString => [EmptyString]
  | String c s' =>
      if p c then EmptyString :: split_on p s'
      else match split_on p s' with
           | w :: ws => String c w :: ws
           | [] => [String c EmptyString]
           end
  end.

(** [sep.join(parts)] *)
Fixpoint join (sep : string) (parts : list string) : string :=
  match parts with
  | [] => EmptyString
  | [w] => w
  | w :: ws => w ++ sep ++ join sep ws
  end.


(** Every character of [s] satisfies [p]. *)
Fixpoint all_chars (p : ascii -> bool) (s : string) : bool :=
  match s with
  | EmptyString => true
  | String c s' => p c && all_chars p s'
  end.

(** [s.rstrip(c)] for a single character [c]. *)
Definition rstrip_char (c : ascii) (s : string) : string :=
  rev (snd (span (Ascii.eqb c) (rev s))).

(** [s.replace(c, "")] for a single character [c]. *)
Fixpoint remove_char (c : ascii) (s : string) : string :=
  match s with
  | EmptyString => EmptyString
  | String a s' =>
      if Ascii.eqb a c then remove_char c s' else String a (remove_char c s')
  end.

End Text.

(** ** Binary64, as far as [_to_int] needs it

    Only non-negative values occur.  [Finite m e] is the value [m * 2^e];
    [Inf] is positive infinity. *)

Module Float.

Inductive b64 : Type :=
| Finite (m e : Z)
| Inf.

(** [num / den] rounded to the nearest integer, ties to even
    ([0 <= num], [0 < den]). *)
Definition round_half_even (num den : Z) : Z :=
  let q := num / den in
  let r := num mod den in
  if 2 * r <? den then q
  else if den <? 2 * r then q + 1
  else if Z.even q then q else q + 1.

(** [2^l <= num / den] *)
Definition ge_pow2 (num den l : Z) : bool :=
  if 0 <=? l then den * 2 ^ l <=? num else den <=? num * 2 ^ (- l).

(** The binary64 nearest to [num / den] (round to nearest, ties to even),
    with gradual underflow and overflow to infinity. *)
Definition of_ratio (num den : Z) : b64 :=
  if num =? 0 then Finite 0 0
  else
    let l := Z.log2 num - Z.log2 den in
    let e0 := if ge_pow2 num den l then l else l - 1 in
    let e := Z.max (e0 - 52) (-1074) in
    if 0 <=? e then
      let m := round_half_even num (den * 2 ^ e) in
      if 2 ^ 1024 <=? m * 2 ^ e then Inf else Finite m e
    else Finite (round_half_even (num * 2 ^ (- e)) den) e.

(** [x * 1000] *)
Definition mul1000 (x : b64) : b64 :=
  match x with
  | Inf => Inf
  | Finite m e =>
      if 0 <=? e then of_ratio (m * 1000 * 2 ^ e) 1
      else of_ratio (m * 1000) (2 ^ (- e))
  end.

(** [round(x)] with no digits argument: the nearest integer, ties to even;
    [OverflowError] on infinity. *)
Definition py_round (x : b64) : result Z :=
  match x with
  | Inf => Raise OverflowError
  | Finite m e =>
      Ok (if 0 <=? e then m * 2 ^ e else round_half_even m (2 ^ (- e)))
  end.

Definition digit_val (c : ascii) : Z := Z.of_nat (Text.code c) - 48.

(** The integer written by the digits of [s]; other characters are skipped. *)
Fixpoint digits_val (acc : Z) (s : string) : Z :=
  match s with
  | EmptyString => acc
  | String c s' =>
      if Text.is_digit c then digits_val (10 * acc + digit_val c) s'
      else digits_val acc s'
  end.

Definition is_dot (c : ascii) : bool := Ascii.eqb c ".".



(** [float(s)] for [s] of the shape [digits] or [digits.digits], the only
    shapes the salary patterns capture once commas are removed. *)
Definition of_decimal (s : string) : b64 :=
  let '(ip, rest) := Text.span (fun c => negb (is_dot c)) s in
  let fp := match rest with String _ f => f | EmptyString => EmptyString end in
  of_ratio (digits_val 0 (ip ++ fp)) (10 ^ Z.of_nat (String.length fp)).

End Float.

(** ** app/parsing/extract_salary.py *)

Definition is_comma (c : ascii) : bool := Ascii.eqb c ",".

Definition is_k (c : ascii) : bool := Ascii.eqb c "k" || Ascii.eqb c "K".

(** [\d[\d,]*(?:\.\d+)?] matched at the head of [s]: the captured text and
    the rest.  Every quantifier is greedy and none of the pattern elements
    that may follow can start with a character a greedy step has consumed,
    so this is the only way the pattern can match here. *)
Definition match_amount (s : string) : option (string * string) :=
  match s with
  | String c s1 =>
      if Text.is_digit c then
        let '(body, r1) :=
          Text.span (fun a => Text.is_digit a || is_comma a) s1 in
        match r1 with
        | String p (String d r2) =>
            if Float.is_dot p && Text.is_digit d then
              let '(fd, r3) := Text.span Text.is_digit r2 in
              Some (String c (body ++ String p (String d fd)), r3)
            else Some (String c body, r1)
        | _ => Some (String c body, r1)
        end
      else None
  | EmptyString => None
  end.

(** [[kK]?] *)
Definition opt_k (s : string) : option ascii * string :=
  match s with
  | String c r => if is_k c then (Some c, r) else (None, s)
  | EmptyString => (None, s)
  end.

Definition is_dollar (c : ascii) : bool := Ascii.eqb c "$".

(** The UTF-8 bytes of the en dash (U+2013) and of the em dash (U+2014). *)
Definition is_dash_lead (a b : ascii) : bool :=
  Nat.eqb (Text.code a) 226 && Nat.eqb (Text.code b) 128.

Definition is_dash_tail (c : ascii) : bool :=
  Nat.eqb (Text.code c) 147 || Nat.eqb (Text.code c) 148.

Definition en_dash : string :=
  String (ascii_of_nat 226) (String (ascii_of_nat 128)
    (String (ascii_of_nat 147) EmptyString)).

Definition em_dash : string :=
  String (ascii_of_nat 226) (String (ascii_of_nat 128)
    (String (ascii_of_nat 148) EmptyString)).

(** [(?:-|en dash|em dash|to)], compiled with [re.IGNORECASE]. *)
Definition match_sep (s : string) : option string :=
  match s with
  | String a r =>
      if Ascii.eqb a "-" then Some r
      else
        match r with
        | String b r' =>
            if Ascii.eqb (Text.lower_char a) "t" && Ascii.eqb (Text.lower_char b) "o"
            then Some r'
            else
              match r' with
              | String c r'' =>
                  if is_dash_lead a b && is_dash_tail c then Some r'' else None
              | EmptyString => None
              end
        | EmptyString => None
        end
  | EmptyString => None
  end.

Record range_match : Type := RangeMatch {
  low : string;
  lowsuffix : option ascii;
  high : string;
  highsuffix : option ascii
}.

(** [\$] followed by the amount pattern, at the head of [s]. *)
Definition match_dollar_amount (s : string) : option (string * string) :=
  match s with
  | String c t => if is_dollar c then match_amount t else None
  | EmptyString => None
  end.

(** [_RANGE_PATTERN] matched at the head of [s]. *)
Definition match_range_at (s : string) : option range_match :=
  match match_dollar_amount s with
  | Some (lo, r1) =>
      let '(ls, r2) := opt_k (Text.lstrip r1) in
      match match_sep (Text.lstrip r2) with
      | Some r3 =>
          match match_dollar_amount (Text.lstrip r3) with
          | Some (hi, r5) =>
              let '(hs, _) := opt_k (Text.lstrip r5) in
              Some (RangeMatch lo ls hi hs)
          | None => None
          end
      | None => None
      end
  | None => None
  end.

(** [_SINGLE_PATTERN] matched at the head of [s]: value and suffix. *)
Definition match_single_at (s : string) : option (string * option ascii) :=
  match match_dollar_amount s with
  | Some (v, r) => Some (v, fst (opt_k r))
  | None => None
  end.

(** [pattern.search(text)]: the match at the leftmost position that has
    one.  ([finditer] followed by taking element 0 is the same match.) *)
Fixpoint search {A : Type} (m : string -> option A) (s : string) : option A :=
  match m s with
  | Some r => Some r
  | None =>
      match s with
      | EmptyString => None
      | String _ s' => search m s'
      end
  end.

Definition _to_int (value : string) (suffix : option ascii) : result Z :=
  let number := Float.of_decimal (Text.remove_char "," value) in
  let number :=
    match suffix with
    | Some c => if Ascii.eqb (Text.lower_char c) "k"
                then Float.mul1000 number else number
    | None => number
    end in
  Float.py_round number.

Definition extract_salary_range (text : string) : result (option (Z * Z)) :=
  if negb (Text.nonempty text) then Ok None
  else
    match search match_range_at text with
    | Some m =>
        let* lo := _to_int (low m) (lowsuffix m) in
        let* hi := _to_int (high m) (highsuffix m) in
        if hi <? lo then Ok (Some (hi, lo)) else Ok (Some (lo, hi))
    | None =>
        match search match_single_at text with
        | None => Ok None
        | Some (v, sfx) =>
            let* value := _to_int v sfx in
            Ok (Some (value, value))
        end
    end.

(** *** Vocabulary for the properties of [extract_salary_range] *)






(** ** app/parsing/normalize_location.py *)

Inductive location_kind : Type := KRemote | KHybrid | KOnSite.

Record LocationDetails : Type := {
  raw : string;
  normalized : string;
  city : option string;
  region : option string;
  country : option string;
  kind : location_kind;
  is_remote : bool
}.

Definition REMOTE_KEYWORDS : list string := ["remote"; "anywhere"; "distributed"].
Definition HYBRID_KEYWORDS : list string := ["hybrid"; "flexible"].

Definition is_token_sep (c : ascii) : bool :=
  Ascii.eqb c "," || Ascii.eqb c "/" || Ascii.eqb c "|".

Definition _tokenise (location : string) : list string :=
  List.filter Text.nonempty (map Text.strip (Text.split_on is_token_sep location)).

(** [list(dict.fromkeys(xs))]: first occurrences, in order. *)
Fixpoint fromkeys (xs : list string) : list string :=
  match xs with
  | [] => []
  | x :: xs' => x :: List.filter (fun y => negb (String.eqb y x)) (fromkeys xs')
  end.

Definition normalize_location (location : string) : LocationDetails :=
  let raw := Text.strip location in
  let lowered := Text.lower raw in
  let is_remote := existsb (fun k => Text.contains k lowered) REMOTE_KEYWORDS in
  let is_hybrid :=
    negb is_remote && existsb (fun k => Text.contains k lowered) HYBRID_KEYWORDS in
  let kind := if is_remote then KRemote else if is_hybrid then KHybrid else KOnSite in
  let tokens := _tokenise raw in
  let normalized :=
    match tokens with
    | [] => if is_remote then "Remote" else "Unknown"
    | _ :: _ => Text.join ", " (fromkeys tokens)
    end in
  let normalized :=
    match kind with
    | KHybrid =>
        if negb (String.eqb normalized "Unknown")
        then "Hybrid - " ++ normalized
        else if is_remote && negb (String.eqb normalized "Remote")
             then "Remote - " ++ normalized else normalized
    | _ =>
        if is_remote && negb (String.eqb normalized "Remote")
        then "Remote - " ++ normalized else normalized
    end in
  {| raw := raw;
     normalized := normalized;
     city := nth_error tokens 0;
     region := nth_error tokens 1;
     country := nth_error tokens 2;
     kind := kind;
     is_remote := is_remote |}.

(** ** Python values carried by payloads and configuration entries *)

Inductive pyval : Type :=
| PyNone
| PyBool (b : bool)
| PyInt (n : Z)
| PyStr (s : string)
| PyList (xs : list pyval)
| PyTuple (xs : list pyval)
| PyDict (m : gmap string pyval)
| PyDatetime (wall : Z) (utcoffset : option Z).

Fixpoint pyval_eq_dec (a b : pyval) {struct a} : Decision (a = b).
Proof.
  refine
    (match a, b with
     | PyNone, PyNone => left _
     | PyBool x, PyBool y => cast_if (decide (x = y))
     | PyInt x, PyInt y => cast_if (decide (x = y))
     | PyStr x, PyStr y => cast_if (decide (x = y))
     | PyList xs, PyList ys =>
         cast_if (@decide (xs = ys) (@list_eq_dec _ pyval_eq_dec xs ys))
     | PyTuple xs, PyTuple ys =>
         cast_if (@decide (xs = ys) (@list_eq_dec _ pyval_eq_dec xs ys))
     | PyDict m1, PyDict m2 =>
         cast_if (@decide (m1 = m2) (@gmap_eq_dec _ _ _ _ pyval_eq_dec m1 m2))
     | PyDatetime w1 o1, PyDatetime w2 o2 =>
         cast_if_and (decide (w1 = w2)) (decide (o1 = o2))
     | _, _ => right _
     end); abstract congruence.
Defined.

#[global] Instance pyval_eq_decision : EqDecision pyval := pyval_eq_dec.

(** The instant a datetime denotes: a naive one is read as UTC. *)
Definition utc_instant (wall : Z) (utcoffset : option Z) : Z :=
  wall - default 0 utcoffset.

(** A normal form for [==]: [True == 1] and [False == 0]; sequences compare
    element by element, mappings key by key, aware datetimes by instant. *)
Fixpoint canon (v : pyval) : pyval :=
  match v with
  | PyBool b => PyInt (if b then 1 else 0)
  | PyList xs => PyList (map canon xs)
  | PyTuple xs => PyTuple (map canon xs)
  | PyDict m => PyDict (canon <$> m)
  | PyDatetime w (Some o) => PyDatetime (w - o) (Some 0)
  | _ => v
  end.

(** [a == b] *)
Definition py_eq (a b : pyval) : bool := bool_decide (canon a = canon b).

(** [bool(v)] *)
Definition truthy (v : pyval) : bool :=
  match v with
  | PyNone => false
  | PyBool b => b
  | PyInt n => negb (n =? 0)
  | PyStr s => Text.nonempty s
  | PyList xs | PyTuple xs => match xs with [] => false | _ => true end
  | PyDict m => negb (bool_decide (m = ∅))
  | PyDatetime _ _ => true
  end.

(** [a or b] *)
Definition py_or (a b : pyval) : pyval := if truthy a then a else b.

(** [v[i]] for a non-negative integer index. *)
Definition py_index (v : pyval) (i : nat) : result pyval :=
  match v with
  | PyList xs | PyTuple xs =>
      match nth_error xs i with Some x => Ok x | None => Raise IndexError end
  | PyStr s =>
      match String.get i s with
      | Some c => Ok (PyStr (String c EmptyString))
      | None => Raise IndexError
      end
  | PyDict _ => Raise KeyError
  | _ => Raise TypeError
  end.

(** [list(v)]: the elements a [for] loop over [v] visits; for a mapping, its
    keys, which the map enumerates in its own order rather than in insertion
    order. *)
Definition py_iter (v : pyval) : result (list pyval) :=
  match v with
  | PyList xs | PyTuple xs => Ok xs
  | PyStr s => Ok (map (fun c => PyStr (String c EmptyString)) (list_ascii_of_string s))
  | PyDict m => Ok (map (fun kv => PyStr (fst kv)) (map_to_list m))
  | _ => Raise TypeError
  end.

(** What the pipeline takes from its surroundings: the HTML cleaner built on
    the HTML parser, the date parser, [repr] of containers and datetimes, URL
    splitting, the identifiers and the clock of the store. *)
Class Extern : Type := {
  clean_html : string -> string;
  (** [date_parser.parse]: wall-clock instant and UTC offset, or [None] for
      the [ValueError], [TypeError] and [OverflowError] the code catches. *)
  date_parse : string -> option (Z * option Z);
  py_repr : pyval -> string;
  (** [urlparse(url)]: path and host name, or [None] where it raises. *)
  urlparse : string -> option (string * option string);
  uuid4 : nat -> Z;
  now : nat -> Z
}.

(** Stand-ins for the surroundings, for running the model on examples. *)
Definition sample_extern : Extern := {|
  clean_html := fun html => html;
  date_parse := fun _ => None;
  py_repr := fun _ => "<object>";
  urlparse := fun u => Some (u, None);
  uuid4 := fun n => Z.of_nat n;
  now := fun n => Z.of_nat n
|}.

Definition str_of_Z (n : Z) : string :=
  DecimalString.NilZero.string_of_int (Z.to_int n).

(** The status [upsert_job] reports. *)
Module Status.
Inductive t : Type := inserted | updated | unchanged.
End Status.

Section Normalization.
Context {ext : Extern}.

(** [str(v)] *)
Definition py_str (v : pyval) : string :=
  match v with
  | PyStr s => s
  | PyNone => "None"
  | PyBool b => if b then "True" else "False"
  | PyInt n => str_of_Z n
  | _ => py_repr v
  end.

(** ** app/ingestion/base.py *)

Definition _coerce_datetime (value : pyval) : option Z :=
  match value with
  | PyNone => None
  | PyDatetime w o => Some (utc_instant w o)
  | _ =>
      match date_parse (py_str value) with
      | Some (w, o) => Some (utc_instant w o)
      | None => None
      end
  end.

Record NormalizedJob : Type := {
  source : string;
  external_id : string;
  url : string;
  company : string;
  title : string;
  location : string;
  remote : bool;
  posted_at : option Z;
  description_html : string;
  description_text : string;
  tags : string;
  salary_min : pyval;
  salary_max : pyval;
  raw_json : pyval
}.

(** [payload.get(key)] and [payload.get(key, dflt)] *)
Definition get (payload : gmap string pyval) (key : string) : pyval :=
  default PyNone (payload !! key).

Definition get_or (payload : gmap string pyval) (key : string) (dflt : pyval) : pyval :=
  default dflt (payload !! key).

Definition strip_nonempty (parts : list string) : list string :=
  List.filter Text.nonempty (map Text.strip parts).

Definition newline : string := String (ascii_of_nat 10) EmptyString.

Definition normalize_payload (payload : gmap string pyval) : result NormalizedJob :=
  let source := py_str (get_or payload "source" (PyStr "unknown")) in
  let html_description :=
    py_str (py_or (get payload "description_html")
                  (py_or (get payload "description") (PyStr ""))) in
  let text_description :=
    py_or (get payload "description_text") (PyStr (clean_html html_description)) in
  let location_info := normalize_location (py_str (get_or payload "location" (PyStr ""))) in
  let salary_text :=
    py_or (get payload "salary_text")
          (PyStr (html_description ++ newline ++ py_str text_description)) in
  let* salary_range :=
    (if truthy (get payload "salary_range") then Ok (get payload "salary_range")
     else
       let* r := extract_salary_range (py_str salary_text) in
       Ok (match r with
           | Some (lo, hi) => PyTuple [PyInt lo; PyInt hi]
           | None => PyNone
           end)) in
  let tags := get_or payload "tags" (PyList []) in
  let* tag_list :=
    (match tags with
     | PyStr s => Ok (strip_nonempty (Text.split_on is_comma s))
     | _ => let* parts := py_iter tags in Ok (strip_nonempty (map py_str parts))
     end) in
  let posted_at := _coerce_datetime (get payload "posted_at") in
  let company := py_str (get_or payload "company" (PyStr "")) in
  let* smin := (if truthy salary_range then py_index salary_range 0 else Ok PyNone) in
  let* smax := (if truthy salary_range then py_index salary_range 1 else Ok PyNone) in
  Ok {| source := source;
        external_id := py_str (get_or payload "external_id" (PyStr ""));
        url := py_str (get_or payload "url" (PyStr ""));
        company := if Text.nonempty company then company else "Unknown";
        title := py_str (get_or payload "title" (PyStr ""));
        location := normalized location_info;
        remote := truthy (get_or payload "remote" (PyBool (is_remote location_info)));
        posted_at := posted_at;
        description_html := html_description;
        description_text := py_str text_description;
        tags := Text.join "," tag_list;
        salary_min := smin;
        salary_max := smax;
        raw_json := py_or (get payload "raw_json")
                          (py_or (get payload "raw") (PyDict payload)) |}.

(** The invariant of the salary columns: both null, or both integers with
    [salary_min <= salary_max]. *)
Definition salary_invariant (n : NormalizedJob) : Prop :=
  match salary_min n, salary_max n with
  | PyNone, PyNone => True
  | PyInt lo, PyInt hi => lo <= hi
  | _, _ => False
  end.

End Normalization.

(** Sample payloads: one as an adapter shapes it, one that carries a salary
    range of its own with the larger bound first. *)
Definition lever_payload : gmap string pyval :=
  <["source" := PyStr "lever"]>
    (<["external_id" := PyStr "42"]>
       (<["title" := PyStr "Backend Engineer"]>
          (<["location" := PyStr "Toronto, ON / Remote"]>
             (<["salary_text" := PyStr "$85k - $105k"]>
                (<["tags" := PyList [PyStr "php"; PyStr " api "]]> ∅))))).

Definition reversed_range_payload : gmap string pyval :=
  <["salary_range" := PyList [PyInt 100; PyInt 50]]> ∅.

Section Store.
Context {ext : Extern}.

(** *** The jobs table and [upsert_job] *)

Record Job : Type := {
  id : Z;
  fields : NormalizedJob;
  created_at : Z;
  updated_at : Z
}.

(** The session: the jobs table, keyed by the unique pair
    [(source, external_id)], and the number of rows written so far, which
    indexes the identifiers and the clock of the store. *)
Record Session : Type := {
  jobs : gmap (string * string) Job;
  writes : nat
}.


(** The columns [upsert_job] may overwrite. *)
Inductive field : Type :=
| f_url | f_company | f_title | f_location | f_remote | f_posted_at
| f_description_html | f_description_text | f_tags
| f_salary_min | f_salary_max | f_raw_json.

Definition updatable_fields : list field :=
  [f_url; f_company; f_title; f_location; f_remote; f_posted_at;
   f_description_html; f_description_text; f_tags;
   f_salary_min; f_salary_max; f_raw_json].

#[global] Instance field_eq_dec : EqDecision field.
Proof. solve_decision. Defined.

Definition str_ne (a b : string) : bool := negb (String.eqb a b).
Definition bool_ne (a b : bool) : bool := negb (Bool.eqb a b).
Definition time_ne (a b : option Z) : bool := negb (bool_decide (a = b)).
Definition py_ne (a b : pyval) : bool := negb (py_eq a b).

(** [getattr(existing, field) != normalized[field]] *)
Definition differs (f : field) (existing new : NormalizedJob) : bool :=
  match f with
  | f_url => str_ne (url existing) (url new)
  | f_company => str_ne (company existing) (company new)
  | f_title => str_ne (title existing) (title new)
  | f_location => str_ne (location existing) (location new)
  | f_remote => bool_ne (remote existing) (remote new)
  | f_posted_at => time_ne (posted_at existing) (posted_at new)
  | f_description_html => str_ne (description_html existing) (description_html new)
  | f_description_text => str_ne (description_text existing) (description_text new)
  | f_tags => str_ne (tags existing) (tags new)
  | f_salary_min => py_ne (salary_min existing) (salary_min new)
  | f_salary_max => py_ne (salary_max existing) (salary_max new)
  | f_raw_json => py_ne (raw_json existing) (raw_json new)
  end.

(** [setattr(existing, field, normalized[field])] *)
Definition assign (f : field) (existing new : NormalizedJob) : NormalizedJob :=
  {| source := source existing;
     external_id := external_id existing;
     url := match f with f_url => url new | _ => url existing end;
     company := match f with f_company => company new | _ => company existing end;
     title := match f with f_title => title new | _ => title existing end;
     location := match f with f_location => location new | _ => location existing end;
     remote := match f with f_remote => remote new | _ => remote existing end;
     posted_at :=
       match f with f_posted_at => posted_at new | _ => posted_at existing end;
     description_html :=
       match f with
       | f_description_html => description_html new
       | _ => description_html existing
       end;
     description_text :=
       match f with
       | f_description_text => description_text new
       | _ => description_text existing
       end;
     tags := match f with f_tags => tags new | _ => tags existing end;
     salary_min :=
       match f with f_salary_min => salary_min new | _ => salary_min existing end;
     salary_max :=
       match f with f_salary_max => salary_max new | _ => salary_max existing end;
     raw_json :=
       match f with f_raw_json => raw_json new | _ => raw_json existing end |}.

(** The loop over [updatable_fields]: the record as assigned so far and the
    flag [changed]. *)
Fixpoint update_fields (fs : list field) (existing new : NormalizedJob)
  (changed : bool) : NormalizedJob * bool :=
  match fs with
  | [] => (existing, changed)
  | f :: rest =>
      if differs f existing new
      then update_fields rest (assign f existing new) new true
      else update_fields rest existing new changed
  end.

Definition upsert_job (session : Session) (payload : gmap string pyval)
  : result (Session * Job * Status.t) :=
  let* normalized := normalize_payload payload in
  let key := (source normalized, external_id normalized) in
  match jobs session !! key with
  | None =>
      let job := {| id := uuid4 (writes session);
                    fields := normalized;
                    created_at := now (writes session);
                    updated_at := now (writes session) |} in
      Ok ({| jobs := <[key := job]> (jobs session);
             writes := S (writes session) |}, job, Status.inserted)
  | Some existing =>
      let '(assigned, changed) :=
        update_fields updatable_fields (fields existing) normalized false in
      if changed then
        let job := {| id := id existing;
                      fields := assigned;
                      created_at := created_at existing;
                      updated_at := now (writes session) |} in
        Ok ({| jobs := <[key := job]> (jobs session);
               writes := S (writes session) |}, job, Status.updated)
      else Ok (session, existing, Status.unchanged)
  end.

End Store.

Definition empty_session : Session := {| jobs := ∅; writes := 0 |}.

(** *** [IngestResult] and [IngestionSource.ingest] *)

Module IngestResult.

Record t : Type := {
  source : string;
  fetched : Z;
  inserted : Z;
  updated : Z;
  skipped : Z
}.

Definition init (source : string) : t :=
  {| source := source; fetched := 0; inserted := 0; updated := 0; skipped := 0 |}.

(** [result.fetched += 1] and its three siblings *)
Definition add_fetched (r : t) : t :=
  {| source := source r; fetched := fetched r + 1;
     inserted := inserted r; updated := updated r; skipped := skipped r |}.

Definition add_inserted (r : t) : t :=
  {| source := source r; fetched := fetched r;
     inserted := inserted r + 1; updated := updated r; skipped := skipped r |}.

Definition add_updated (r : t) : t :=
  {| source := source r; fetched := fetched r;
     inserted := inserted r; updated := updated r + 1; skipped := skipped r |}.

Definition add_skipped (r : t) : t :=
  {| source := source r; fetched := fetched r;
     inserted := inserted r; updated := updated r; skipped := skipped r + 1 |}.

(** What the three outcome counters leave of [fetched]. *)
Definition balance (r : t) : Z :=
  fetched r - (inserted r + updated r + skipped r).

End IngestResult.

Section Ingestion.
Context {ext : Extern}.

(** The body of the [for] loop of [ingest], over the payloads that
    [self.fetch(limit=limit)] produced. *)
Fixpoint ingest_loop (dry_run : bool) (payloads : list (gmap string pyval))
  (session : Session) (res : IngestResult.t)
  : result (Session * IngestResult.t) :=
  match payloads with
  | [] => Ok (session, res)
  | payload :: rest =>
      let res := IngestResult.add_fetched res in
      if dry_run then
        ingest_loop dry_run rest session (IngestResult.add_skipped res)
      else
        let* r := upsert_job session payload in
        let '(session', _, st) := r in
        ingest_loop dry_run rest session'
          (match st with
           | Status.inserted => IngestResult.add_inserted res
           | Status.updated => IngestResult.add_updated res
           | Status.unchanged => IngestResult.add_skipped res
           end)
  end.

Definition ingest (self_source : string) (session : Session)
  (payloads : list (gmap string pyval)) (dry_run : bool)
  : result (Session * IngestResult.t) :=
  ingest_loop dry_run payloads session (IngestResult.init self_source).

End Ingestion.


(** ** app/tasks/jobs.py: adapter construction *)

Inductive config_entry : Type :=
| EntryStr (s : string)
| EntryMap (m : gmap string pyval).

(** The three adapters, by the attributes their constructors set. *)
Inductive IngestionSource : Type :=
| GreenhouseIngestion (board_url company : string)
| LeverIngestion (company : string)
| WorkdayIngestion (search_url company : string).

Definition adapter_source (a : IngestionSource) : string :=
  match a with
  | GreenhouseIngestion _ _ => "greenhouse"
  | LeverIngestion _ => "lever"
  | WorkdayIngestion _ _ => "workday"
  end.

Section Adapters.
Context {ext : Extern}.

Definition is_slash (c : ascii) : bool := Ascii.eqb c "/".

(** [[segment for segment in parsed.path.split("/") if segment]] *)
Definition path_segments (path : string) : list string :=
  List.filter Text.nonempty (Text.split_on is_slash path).

(** [parsed.hostname or dflt] *)
Definition hostname_or (hostname : option string) (dflt : string) : string :=
  match hostname with
  | Some h => if Text.nonempty h then h else dflt
  | None => dflt
  end.

Definition urlparse_error : exn := ValueError "urlparse".

(** [GreenhouseIngestion.__init__] *)
Definition new_GreenhouseIngestion (board_url : string) : result IngestionSource :=
  let board_url := Text.rstrip_char "/" board_url in
  match urlparse board_url with
  | None => Raise urlparse_error
  | Some (path, hostname) =>
      let company :=
        match last (path_segments path) with
        | Some seg => seg
        | None => hostname_or hostname "Greenhouse"
        end in
      Ok (GreenhouseIngestion board_url company)
  end.

(** [LeverIngestion.__init__] *)
Definition new_LeverIngestion (company : string) : result IngestionSource :=
  Ok (LeverIngestion company).

(** [WorkdayIngestion.__init__] *)
Definition new_WorkdayIngestion (search_url : string) : result IngestionSource :=
  match urlparse search_url with
  | None => Raise urlparse_error
  | Some (path, hostname) =>
      let company :=
        match nth_error (path_segments path) 2 with
        | Some seg => seg
        | None => hostname_or hostname "Workday"
        end in
      Ok (WorkdayIngestion search_url company)
  end.

(** [entry if isinstance(entry, str) else entry.get(key, "")] *)
Definition entry_param (entry : config_entry) (key : string) : pyval :=
  match entry with
  | EntryStr s => PyStr s
  | EntryMap m => get_or m key (PyStr "")
  end.

Definition _build_ingestor (source : string) (entry : config_entry)
  : result IngestionSource :=
  if String.eqb source "greenhouse" then
    let board := entry_param entry "board" in
    if negb (truthy board)
    then Raise (ValueError "Greenhouse configuration requires a board URL")
    else new_GreenhouseIngestion (py_str board)
  else if String.eqb source "lever" then
    let company := entry_param entry "company" in
    if negb (truthy company)
    then Raise (ValueError "Lever configuration requires a company handle")
    else new_LeverIngestion (py_str company)
  else if String.eqb source "workday" then
    let search_url := entry_param entry "url" in
    if negb (truthy search_url)
    then Raise (ValueError "Workday configuration requires a search URL")
    else new_WorkdayIngestion (py_str search_url)
  else Raise (ValueError ("Unsupported ingestion source: " ++ source)).

(** The parameter a source needs from its configuration entry; [None] for
    a source identifier the builder does not know. *)
Definition required_param (source : string) : option string :=
  if String.eqb source "greenhouse" then Some "board"
  else if String.eqb source "lever" then Some "company"
  else if String.eqb source "workday" then Some "url"
  else None.

(** A configuration the builder accepts: a known source, its parameter
    present and non-empty, and, where the constructor splits a URL, a URL
    that [urlparse] accepts. *)
Definition well_formed_entry (source : string) (entry : config_entry) : Prop :=
  match required_param source with
  | None => False
  | Some key =>
      let p := entry_param entry key in
      truthy p = true
      /\ (if String.eqb source "greenhouse"
          then urlparse (Text.rstrip_char "/" (py_str p)) <> None
          else if String.eqb source "workday"
               then urlparse (py_str p) <> None
               else True)
  end.

(** One turn of the inner loop of [ingest_all]: build the adapter, then let
    it fetch and ingest.  [fetch] stands for the adapter's network fetch;
    [log] records, in order, the adapters that were asked to fetch. *)
Definition ingest_entry
  (fetch : IngestionSource -> result (list (gmap string pyval)))
  (source : string) (entry : config_entry) (dry_run : bool)
  (session : Session) (log : list IngestionSource)
  : result (Session * IngestResult.t) * list IngestionSource :=
  match _build_ingestor source entry with
  | Raise e => (Raise e, log)
  | Ok ingestor =>
      (let* payloads := fetch ingestor in
       ingest (adapter_source ingestor) session payloads dry_run,
       (log ++ [ingestor])%list)
  end.

End Adapters.

(** ** app/core/settings.py: the values the matching run reads *)

Record AppSettings : Type := {
  match_keywords : list string;
  title_keywords : list string;
  geo_filter_keywords : list string;
  min_score : Q;
  cosine_weight : R;
  keyword_weight : R
}.

(** ** app/matching/filters.py

    The mappings the filters receive are the candidates [match_all] builds;
    a score that passes through the cascade is a finite float, hence a
    rational number, and the cascade only compares scores. *)

Module Candidate.

Record t : Type := {
  job : Job;
  score : Q;
  matched_keywords : list string;
  cosine : Q;
  location : string;
  remote : bool;
  title : string
}.

End Candidate.

Definition _normalize (values : list string) : list string :=
  map Text.strip
      (List.filter (fun v => Text.nonempty v && Text.nonempty (Text.strip v)) values).

Definition filter_by_geo (jobs : list Candidate.t) (allowed_regions : list string)
  : list Candidate.t :=
  let allowed := map Text.lower (_normalize allowed_regions) in
  List.filter
    (fun job =>
       if Candidate.remote job then true
       else
         let location := Text.lower (Candidate.location job) in
         existsb (fun marker => Text.contains marker location) allowed)
    jobs.

Definition filter_by_min_score (jobs : list Candidate.t) (minimum : Q)
  : list Candidate.t :=
  List.filter (fun job => Qle_bool minimum (Candidate.score job)) jobs.

Definition filter_by_title_keywords (jobs : list Candidate.t) (keywords : list string)
  : list Candidate.t :=
  let keyword_list := map Text.lower (_normalize keywords) in
  match keyword_list with
  | [] => jobs
  | _ :: _ =>
      List.filter
        (fun job =>
           let title := Text.lower (Candidate.title job) in
           existsb (fun keyword => Text.contains keyword title) keyword_list)
        jobs
  end.

(** *** Vocabulary for the properties of the filters *)

(** [text] contains [marker], compared without regard to case. *)
Definition contains_nocase (marker text : string) : bool :=
  Text.contains (Text.lower marker) (Text.lower text).


(** What the filters test: some entry of [markers] that is not blank occurs
    in [text] once its surrounding whitespace is stripped. *)
Definition has_marker (markers : list string) (text : string) : Prop :=
  exists marker,
    In marker markers /\ Text.strip marker <> EmptyString
    /\ contains_nocase (Text.strip marker) text = true.

Definition sample_fields : NormalizedJob := {|
  source := "greenhouse"; external_id := "1"; url := ""; company := "Unknown";
  title := ""; location := "Unknown"; remote := false; posted_at := None;
  description_html := ""; description_text := ""; tags := "";
  salary_min := PyNone; salary_max := PyNone; raw_json := PyNone |}.

Definition sample_job : Job :=
  {| id := 0; fields := sample_fields; created_at := 0; updated_at := 0 |}.

(** A candidate with the given score, location, remote flag and title. *)
Definition candidate (score : Q) (location : string) (remote : bool) (title : string)
  : Candidate.t :=
  {| Candidate.job := sample_job; Candidate.score := score;
     Candidate.matched_keywords := []; Candidate.cosine := 0%Q;
     Candidate.location := location; Candidate.remote := remote;
     Candidate.title := title |}.

Definition berlin : Candidate.t := candidate 0 "Berlin" false "".
Definition php_developer : Candidate.t := candidate 0 "" false "PHP Developer".
Definition java_developer : Candidate.t := candidate 0 "" false "Java Developer".

(** ** app/tasks/jobs.py: the ranking step of [match_all] *)

(** [a < b] on scores *)
Definition score_lt (a b : Q) : bool := negb (Qle_bool b a).

(** [list.sort(key=..., reverse=True)] is a stable sort: it orders by
    decreasing key and keeps elements with equal keys in their original
    order.  [insert_desc x l] puts [x], which precedes every element of [l]
    in the original list, in front of the first element whose key is not
    greater than its own. *)
Fixpoint insert_desc {A : Type} (key : A -> Q) (x : A) (l : list A) : list A :=
  match l with
  | [] => [x]
  | y :: l' =>
      if score_lt (key x) (key y) then y :: insert_desc key x l'
      else x :: l
  end.

Definition sort_desc {A : Type} (key : A -> Q) (l : list A) : list A :=
  foldr (insert_desc key) [] l.

(** The key of [x] equals [s]. *)
Definition same_key {A : Type} (key : A -> Q) (s : Q) (x : A) : bool :=
  Qeq_bool (key x) s.

(** [a] may stand before [b] in a list sorted by decreasing key. *)
Definition desc {A : Type} (key : A -> Q) (a b : A) : Prop :=
  (key b <= key a)%Q.

(** Lines 168 to 174 of [match_all]: the three filters, then the sort. *)
Definition rank_candidates (settings : AppSettings) (threshold : Q)
  (job_candidates : list Candidate.t) : list Candidate.t :=
  let geo_filtered := filter_by_geo job_candidates (geo_filter_keywords settings) in
  let score_filtered := filter_by_min_score geo_filtered threshold in
  let title_filtered := filter_by_title_keywords score_filtered (title_keywords settings) in
  sort_desc Candidate.score title_filtered.

(** ** app/matching/scorer.py *)

Module Scorer.
#[local] Open Scope R_scope.

Module ScoreResult.
Record t : Type := {
  score : R;
  cosine_similarity : R;
  keyword_weight : R;
  matched_keywords : list string
}.
End ScoreResult.

(** [np.linalg.norm(v)] *)
Definition norm (v : list R) : R :=
  sqrt (fold_right (fun x acc => x * x + acc) 0 v).

Fixpoint dot_sum (a b : list R) : R :=
  match a, b with
  | x :: a', y :: b' => x * y + dot_sum a' b'
  | _, _ => 0
  end.

(** [np.dot(a, b)] for one-dimensional arrays: the shapes must agree. *)
Definition dot (a b : list R) : result R :=
  if Nat.eqb (length a) (length b) then Ok (dot_sum a b)
  else Raise (ValueError "shapes not aligned").

Definition cosine_similarity (vector_a vector_b : list R) : result R :=
  let denom := norm vector_a * norm vector_b in
  if Req_dec_T denom 0 then Ok 0
  else
    let* d := dot vector_a vector_b in
    Ok (d / denom).

(** [clamp(x, 0, 1)], by cases. *)
Definition clamp01 (x : R) : R :=
  if Rlt_dec x 0 then 0 else if Rlt_dec 1 x then 1 else x.

Definition _normalize_keywords (keywords : list string) : list string :=
  map Text.strip
      (List.filter (fun k => Text.nonempty k && Text.nonempty (Text.strip k)) keywords).

Definition _keyword_hits (text : string) (keywords : list string) : list string :=
  let lowered := Text.lower text in
  List.filter (fun keyword => Text.contains (Text.lower keyword) lowered) keywords.

Section Score.
(** [TfidfVectorizer(stop_words="english").fit_transform([job, profile])],
    the two rows of the matrix. *)
Variable tfidf : string -> string -> result (list R * list R).
Variable settings : AppSettings.

Definition score (job_text profile_skills : string) (keywords_list : list string)
  (job_vector profile_vector : option (list R)) : result ScoreResult.t :=
  let keywords := _normalize_keywords keywords_list in
  let keyword_hits := _keyword_hits job_text keywords in
  let keyword_ratio :=
    match keywords with
    | [] => 0
    | _ :: _ => INR (length keyword_hits) / INR (length keywords)
    end in
  let* vectors :=
    (match job_vector, profile_vector with
     | Some jv, Some pv => Ok (jv, pv)
     | _, _ => tfidf job_text profile_skills
     end) in
  let* cosine := cosine_similarity (fst vectors) (snd vectors) in
  let final := cosine_weight settings * cosine + keyword_weight settings * keyword_ratio in
  let final := Rmax 0 (Rmin 1 final) in
  Ok {| ScoreResult.score := final;
        ScoreResult.cosine_similarity := cosine;
        ScoreResult.keyword_weight := keyword_ratio;
        ScoreResult.matched_keywords := keyword_hits |}.

End Score.

(** For examples: a vectorizer that finds no vocabulary, and weights that
    sum to more than one. *)
Definition no_tfidf (_ _ : string) : result (list R * list R) :=
  Raise (ValueError "empty vocabulary").

Definition heavy_weights : AppSettings := {|
  match_keywords := []; title_keywords := []; geo_filter_keywords := [];
  min_score := 0%Q; cosine_weight := 9 / 10; keyword_weight := 9 / 10 |}.

End Scorer.

(** * Further definitions *)

(** The [tags] entry is something [normalize_payload] can split or iterate. *)
Definition tags_iterable (v : pyval) : bool :=
  match v with
  | PyStr _ | PyList _ | PyTuple _ | PyDict _ => true
  | _ => false
  end.

Section StoreVocabulary.
Context {ext : Extern}.

(** The natural key [normalize_payload] gives a payload. *)
Definition natural_key (payload : gmap string pyval) : string * string :=
  (py_str (get_or payload "source" (PyStr "unknown")),
   py_str (get_or payload "external_id" (PyStr ""))).

(** Every row of the table lies under its own natural key. *)
Definition session_keyed (session : Session) : Prop :=
  forall key job,
    jobs session !! key = Some job ->
    (source (fields job), external_id (fields job)) = key.


(** The payloads of a feed whose natural key has no row yet. *)
Definition new_payloads (session : Session) (payloads : list (gmap string pyval))
  : list (gmap string pyval) :=
  List.filter
    (fun p => bool_decide (jobs session !! natural_key p = None)) payloads.

End StoreVocabulary.
(** A feed of two postings with different natural keys. *)
Definition lever_feed : list (gmap string pyval) :=
  [lever_payload; <["external_id" := PyStr "43"]> lever_payload].

(** No entry of [markers] is left once blank entries are discarded. *)
Definition all_blank (markers : list string) : Prop :=
  forall m, In m markers -> Text.strip m = EmptyString.
(** The title filter is a plain filter too, with a test that lets everything
    pass when no keyword is left. *)
Definition title_test (keywords : list string) (job : Candidate.t) : bool :=
  match map Text.lower (_normalize keywords) with
  | [] => true
  | keyword_list =>
      existsb (fun keyword => Text.contains keyword (Text.lower (Candidate.title job)))
              keyword_list
  end.


(** ** app/core/settings.py: [_split_keywords], for a string *)
Definition _split_keywords (value : string) : list string :=
  strip_nonempty (Text.split_on is_comma value).

(** ** app/db/seed.py: the [keywords] column of the seeded profile *)
Definition seeded_keywords (settings : AppSettings) : string :=
  Text.join "," (match_keywords settings).

(** ** app/tasks/jobs.py: the keyword list of [match_all] *)
Definition keyword_candidates (profile_keywords : string) (settings : AppSettings)
  : list string :=
  match strip_nonempty (Text.split_on is_comma profile_keywords) with
  | [] => match_keywords settings
  | candidates => candidates
  end.

(** A keyword as splitting leaves it: not empty, without surrounding
    whitespace, without a comma. *)
Definition clean_keyword (w : string) : Prop :=
  w <> EmptyString /\ Text.strip w = w
  /\ Text.all_chars (fun c => negb (is_comma c)) w = true.
(** An empty string, or one whose first character is not whitespace. *)
Definition starts_solid (s : string) : bool :=
  match s with
  | EmptyString => true
  | String c _ => negb (Text.is_space c)
  end.

(** The settings of a deployment that sets no variable. *)
Definition default_settings : AppSettings := {|
  match_keywords :=
    ["wordpress"; "php"; "javascript"; "woocommerce"; "react"; "api"; "rest"];
  title_keywords := ["WordPress"; "PHP"; "JavaScript"; "WooCommerce"];
  geo_filter_keywords := ["Remote"; "Canada"; "United States"; "US"];
  min_score := 0%Q;
  cosine_weight := (6 / 10)%R;
  keyword_weight := (4 / 10)%R |}.

(** A posting whose tags come as one comma-separated string. *)
Definition tagged_payload : gmap string pyval :=
  <["tags" := PyStr "php, api,,rest "]> lever_payload.

(** ** app/db/session.py and app/tasks/jobs.py: [ingest_all] *)

(** [with session_scope() as session: body]: the session is committed when
    the body returns and rolled back when it raises; the exception is raised
    again.  The first component is the state of the database afterwards. *)
Definition session_scope {A : Type} (session : Session)
  (body : Session -> result (Session * A)) : Session * result A :=
  match body session with
  | Ok (session', a) => (session', Ok a)
  | Raise e => (session, Raise e)
  end.

(** [d.get(key, dflt)] for a mapping kept in insertion order. *)
Fixpoint dict_get {V : Type} (d : list (string * V)) (key : string) (dflt : V) : V :=
  match d with
  | [] => dflt
  | (k, v) :: d' => if String.eqb k key then v else dict_get d' key dflt
  end.

Section IngestAll.
Context {ext : Extern}.
Variable fetch : IngestionSource -> result (list (gmap string pyval)).
Variable configured_sources : list (string * list config_entry).
Variable dry_run : bool.

(** The inner [for entry in entries] loop. *)
Fixpoint ingest_entries (source : string) (entries : list config_entry)
  (session : Session) (results : list IngestResult.t) (log : list IngestionSource)
  : result (Session * list IngestResult.t) * list IngestionSource :=
  match entries with
  | [] => (Ok (session, results), log)
  | entry :: rest =>
      match ingest_entry fetch source entry dry_run session log with
      | (Raise e, log') => (Raise e, log')
      | (Ok (session', r), log') =>
          ingest_entries source rest session' (results ++ [r])%list log'
      end
  end.

(** The outer [for source in targets] loop. *)
Fixpoint ingest_targets (targets : list string)
  (session : Session) (results : list IngestResult.t) (log : list IngestionSource)
  : result (Session * list IngestResult.t) * list IngestionSource :=
  match targets with
  | [] => (Ok (session, results), log)
  | source :: rest =>
      match ingest_entries source (dict_get configured_sources source [])
              session results log with
      | (Raise e, log') => (Raise e, log')
      | (Ok (session', results'), log') => ingest_targets rest session' results' log'
      end
  end.

(** [list(sources) if sources else list(configured_sources.keys())] *)
Definition ingest_targets_of (sources : list string) : list string :=
  match sources with
  | [] => map fst configured_sources
  | _ => sources
  end.

(** [ingest_all]: the database afterwards, the summaries or the exception,
    and the adapters that were asked to fetch. *)
Definition ingest_all (sources : list string) (session : Session)
  : Session * result (list IngestResult.t) * list IngestionSource :=
  let run := ingest_targets (ingest_targets_of sources) session [] [] in
  (session_scope session (fun _ => fst run), snd run).

(** The source labels [ingest_all] is expected to report: each target once
    for every entry configured under it. *)
Definition expected_labels (targets : list string) : list string :=
  flat_map (fun source => map (fun _ => source) (dict_get configured_sources source []))
           targets.

End IngestAll.

(** ** cli/aj.py: [_resolve_ingestor] *)

Module Namespace.
Record t : Type := {
  source : string;
  board : string;
  company : string;
  url : string
}.
End Namespace.

Section Cli.
Context {ext : Extern}.

Definition _resolve_ingestor (args : Namespace.t) : result IngestionSource :=
  if String.eqb (Namespace.source args) "greenhouse" then
    new_GreenhouseIngestion (Namespace.board args)
  else if String.eqb (Namespace.source args) "lever" then
    new_LeverIngestion (Namespace.company args)
  else if String.eqb (Namespace.source args) "workday" then
    new_WorkdayIngestion (Namespace.url args)
  else Raise (ValueError ("Unsupported ingestion source: " ++ Namespace.source args)).

(** The argument the command line requires for a source. *)
Definition cli_param (args : Namespace.t) : string :=
  if String.eqb (Namespace.source args) "greenhouse" then Namespace.board args
  else if String.eqb (Namespace.source args) "lever" then Namespace.company args
  else Namespace.url args.

End Cli.

(** A configuration with two Lever boards and one entry that lacks its
    parameter, and a fetch that finds the same feed everywhere. *)
Definition sample_sources : list (string * list config_entry) :=
  [("lever", [EntryStr "acme"; EntryStr "globex"]); ("workday", [EntryMap ∅])].

Definition sample_fetch (_ : IngestionSource) : result (list (gmap string pyval)) :=
  Ok lever_feed.

(** ** app/ingestion/workday_public.py: [fetch] *)

(** What a fetch can raise: [AttributeError] from [.get] on a value that is
    not a mapping, an exception of the pipeline's own kinds, or whatever the
    HTTP client and the JSON decoder raise. *)
Module Fetch.
Inductive error : Type :=
| AttributeError
| Raised (e : exn)
| TransportError.

Inductive outcome (A : Type) : Type :=
| Done (a : A)
| Failed (e : error).
Arguments Done {A} a.
Arguments Failed {A} e.
End Fetch.

(** [s.endswith(suffix)] *)
Definition ends_with (suffix s : string) : bool :=
  Text.starts_with (Text.rev suffix) (Text.rev s).

Section FetchLoop.
Context {J P : Type}.
Variable shape : J -> Fetch.outcome P.

(** The loop the adapters share: shape a posting, append it, and stop once
    a limit is given and reached. *)
Fixpoint fetch_loop (limit : option Z) (jobs : list J) (normalised : list P)
  : Fetch.outcome (list P) :=
  match jobs with
  | [] => Fetch.Done normalised
  | job :: rest =>
      match shape job with
      | Fetch.Failed e => Fetch.Failed e
      | Fetch.Done item =>
          let normalised := (normalised ++ [item])%list in
          if match limit with
             | Some l => l <=? Z.of_nat (length normalised)
             | None => false
             end
          then Fetch.Done normalised
          else fetch_loop limit rest normalised
      end
  end.

End FetchLoop.

Section Workday.
Context {ext : Extern}.

(** [WorkdayIngestion._is_public], on the path of the search URL. *)
Definition _is_public (path : string) : bool :=
  let path := Text.lower path in
  Text.contains "/wday/" path && Text.contains "/cxs/" path && ends_with "/jobs" path.

(** The body of the loop of [fetch].  Every access that can fail is a [.get]
    on a value that is not a mapping, and raises [AttributeError]: on the
    posting itself, or on its [jobPostingInfo], which the [url] entry reads
    in any case. *)
Definition workday_payload (company : string) (job : pyval)
  : Fetch.outcome (gmap string pyval) :=
  match job with
  | PyDict j =>
      match get_or j "jobPostingInfo" (PyDict ∅) with
      | PyDict posting =>
          let tags :=
            py_or (get_or j "keywords" (PyList []))
                  (py_or (get_or posting "keywords" (PyList [])) (PyList [])) in
          Fetch.Done
            (<["source" := PyStr "workday"]>
            (<["external_id" := get_or j "jobPostingId" (PyStr "")]>
            (<["url" := py_or (get posting "externalUrl")
                              (py_or (get posting "careerPageUrl") (PyStr ""))]>
            (<["company" := py_or (get posting "companyName") (PyStr company)]>
            (<["title" := py_or (get posting "title") (get_or j "title" (PyStr ""))]>
            (<["location" := py_or (get posting "location")
                                   (get_or j "locationsText" (PyStr ""))]>
            (<["remote" := PyBool (Text.contains "remote"
                             (Text.lower (py_str (get_or j "locationsText" (PyStr "")))))]>
            (<["posted_at" := py_or (get posting "postedOn") (get j "postedOn")]>
            (<["description_html" := get_or posting "jobDescription" (PyStr "")]>
            (<["tags" := tags]>
            (<["raw_json" := job]> ∅)))))))))))
      | _ => Fetch.Failed Fetch.AttributeError
      end
  | _ => Fetch.Failed Fetch.AttributeError
  end.

(** [payload.get("jobPostings", []) if isinstance(payload, dict) else []] *)
Definition job_postings (payload : pyval) : pyval :=
  match payload with
  | PyDict p => get_or p "jobPostings" (PyList [])
  | _ => PyList []
  end.

(** [WorkdayIngestion.fetch]; [http_get_json] stands for
    [self.client.get(url).json()], [None] where either call raises. *)
Definition workday_fetch (http_get_json : string -> option pyval)
  (search_url company : string) (limit : option Z)
  : Fetch.outcome (list (gmap string pyval)) :=
  match urlparse search_url with
  | None => Fetch.Failed (Fetch.Raised urlparse_error)
  | Some (path, _) =>
      if negb (_is_public path) then Fetch.Done []
      else
        match http_get_json search_url with
        | None => Fetch.Failed Fetch.TransportError
        | Some payload =>
            match py_iter (job_postings payload) with
            | Raise e => Fetch.Failed (Fetch.Raised e)
            | Ok jobs => fetch_loop (workday_payload company) limit jobs []
            end
        end
  end.

End Workday.

(** The number of postings a fetch emits from a feed of [n]: all of them
    without a limit, otherwise as many as the limit says, but one at
    least. *)
Definition emitted (limit : option Z) (n : nat) : Z :=
  match limit with
  | None => Z.of_nat n
  | Some l => Z.min (Z.of_nat n) (Z.max 1 l)
  end.

(** A public search URL and a feed of three postings, the last of them
    malformed. *)
Definition workday_url : string :=
  "https://acme.wd1.myworkdayjobs.com/wday/cxs/acme/careers/jobs".

Definition workday_posting (id : string) : pyval :=
  PyDict (<["jobPostingId" := PyStr id]> (<["title" := PyStr "Engineer"]> ∅)).

Definition workday_response (_ : string) : option pyval :=
  Some (PyDict (<["jobPostings" :=
                    PyList [workday_posting "1"; workday_posting "2"; PyStr "?"]]> ∅)).

(** ** app/tasks/jobs.py: the match records of [match_all]

    A row of the matches table, with the columns [match_all] reads and
    writes. *)
Module Match.
Record t : Type := {
  job_id : Z;
  profile_id : Z;
  score : Q;
  reason : string
}.
End Match.

(** [filter_by(job_id=..., profile_id=...)] *)
Definition match_of (job_id profile_id : Z) (m : Match.t) : bool :=
  (Match.job_id m =? job_id) && (Match.profile_id m =? profile_id).

(** [.one_or_none()]: the only row, [None] without a row, and
    [MultipleResultsFound], here the outer [None], with more than one. *)
Definition one_or_none (rows : list Match.t) : option (option Match.t) :=
  match rows with
  | [] => Some None
  | [m] => Some (Some m)
  | _ => None
  end.

Section MatchRecords.
(** [f"{value:.2f}"] *)
Variable format_2f : Q -> string.

Definition match_reason (item : Candidate.t) : string :=
  match Candidate.matched_keywords item with
  | [] => "Cosine similarity " ++ format_2f (Candidate.cosine item)
  | reason_keywords => "Matched keywords: " ++ Text.join ", " (firstn 5 reason_keywords)
  end.

(** [existing.score = ...; existing.reason = ...] on the row of a pair *)
Definition rescore (job_id profile_id : Z) (score : Q) (reason : string)
  (m : Match.t) : Match.t :=
  if match_of job_id profile_id m
  then {| Match.job_id := Match.job_id m; Match.profile_id := Match.profile_id m;
          Match.score := score; Match.reason := reason |}
  else m.

(** Lines 176 to 215 of [match_all]: the loop over the ranked candidates;
    [None] where [one_or_none] raises. *)
Fixpoint write_matches (profile_id : Z) (ranked : list Candidate.t)
  (matches : list Match.t) (matches_written : Z) : option (list Match.t * Z) :=
  match ranked with
  | [] => Some (matches, matches_written)
  | item :: rest =>
      let job := Candidate.job item in
      let reason := match_reason item in
      match one_or_none (List.filter (match_of (id job) profile_id) matches) with
      | None => None
      | Some (Some _) =>
          write_matches profile_id rest
            (map (rescore (id job) profile_id (Candidate.score item) reason) matches)
            (matches_written + 1)
      | Some None =>
          write_matches profile_id rest
            (matches ++ [{| Match.job_id := id job; Match.profile_id := profile_id;
                            Match.score := Candidate.score item;
                            Match.reason := reason |}])%list
            (matches_written + 1)
      end
  end.

End MatchRecords.

(** At most one row for every pair of a job and a profile. *)
Definition unique_pairs (matches : list Match.t) : Prop :=
  forall job_id profile_id,
    (length (List.filter (match_of job_id profile_id) matches) <= 1)%nat.

(** The identifiers of the jobs of a list of candidates. *)
Definition job_ids (ranked : list Candidate.t) : list Z :=
  map (fun item => id (Candidate.job item)) ranked.

Definition sample_format_2f (_ : Q) : string := "0.00".

Definition stale_match : Match.t :=
  {| Match.job_id := 7; Match.profile_id := 1; Match.score := 1%Q;
     Match.reason := "Matched keywords: php" |}.

(** * Properties *)

(** ** The salary extractor *)

Module FloatFacts.
Import Float.

Lemma round_half_even_range (num den : Z) :
  0 <= num -> 0 < den ->
  num / den <= round_half_even num den <= num / den + 1.
Proof.
  intros Hn Hd. unfold round_half_even.
  repeat match goal with |- context [if ?b then _ else _] => destruct b end; lia.
Qed.

Lemma round_half_even_nonneg (num den : Z) :
  0 <= num -> 0 < den -> 0 <= round_half_even num den.
Proof.
  intros Hn Hd. pose proof (round_half_even_range num den Hn Hd).
  pose proof (Z.div_pos num den Hn Hd). lia.
Qed.






Lemma digits_val_bound (s : string) (acc : Z) :
  0 <= acc ->
  0 <= digits_val acc s < (acc + 1) * 10 ^ Z.of_nat (String.length s).
Proof.
  revert acc. induction s as [|c s IH]; intros acc Hacc; simpl String.length.
  - simpl. lia.
  - rewrite Nat2Z.inj_succ, Z.pow_succ_r by lia.
    assert (0 < 10 ^ Z.of_nat (String.length s)) by (apply Z.pow_pos_nonneg; lia).
    simpl. destruct (Text.is_digit c) eqn:D.
    + assert (0 <= digit_val c <= 9) as Hd.
      { unfold Text.is_digit, Text.between in D. apply andb_prop in D as [D1 D2].
        apply Nat.leb_le in D1, D2. unfold digit_val. lia. }
      specialize (IH (10 * acc + digit_val c) ltac:(lia)). nia.
    + specialize (IH acc Hacc). nia.
Qed.










End FloatFacts.








(** *** Where the patterns match *)














Lemma extract_salary_range_ordered (text : string) (lo hi : Z) :
  extract_salary_range text = Ok (Some (lo, hi)) -> lo <= hi.
Proof.
  unfold extract_salary_range.
  destruct (negb (Text.nonempty text)); [discriminate|].
  destruct (search match_range_at text) as [m|].
  - destruct (_to_int (low m) (lowsuffix m)) as [a|]; [|discriminate].
    destruct (_to_int (high m) (highsuffix m)) as [b|]; [|discriminate].
    cbn [bind]. destruct (b <? a) eqn:E; intros H; injection H as <- <-.
    + apply Z.ltb_lt in E. lia.
    + apply Z.ltb_ge in E. lia.
  - destruct (search match_single_at text) as [[v sfx]|]; [|discriminate].
    destruct (_to_int v sfx) as [a|]; [|discriminate].
    cbn [bind]. intros H; injection H as <- <-. lia.
Qed.





(** ** [upsert_job] *)

Section UpsertFacts.
Context {ext : Extern}.

Lemma py_ne_refl (v : pyval) : py_ne v v = false.
Proof. unfold py_ne, py_eq. now rewrite bool_decide_eq_true_2. Qed.

Lemma str_ne_refl (s : string) : str_ne s s = false.
Proof. unfold str_ne. now rewrite String.eqb_refl. Qed.

Lemma bool_ne_refl (b : bool) : bool_ne b b = false.
Proof. now destruct b. Qed.

Lemma time_ne_refl (t : option Z) : time_ne t t = false.
Proof. unfold time_ne. now rewrite bool_decide_eq_true_2. Qed.

Ltac ne_refl :=
  rewrite ?py_ne_refl, ?str_ne_refl, ?bool_ne_refl, ?time_ne_refl; reflexivity.

Lemma differs_refl (f : field) (n : NormalizedJob) : differs f n n = false.
Proof. destruct f; simpl; ne_refl. Qed.

Lemma differs_assign_same (f : field) (e n : NormalizedJob) :
  differs f (assign f e n) n = false.
Proof. destruct f; simpl; ne_refl. Qed.

Lemma differs_assign_other (f g : field) (e n : NormalizedJob) :
  f <> g -> differs f (assign g e n) n = differs f e n.
Proof. intros Hne. destruct f, g; try reflexivity; congruence. Qed.

Lemma update_fields_settled (fs : list field) (e n : NormalizedJob) (c : bool) (f : field) :
  In f fs \/ differs f e n = false ->
  differs f (fst (update_fields fs e n c)) n = false.
Proof.
  revert e c. induction fs as [|f0 rest IH]; intros e c H; simpl.
  - destruct H as [[]|H]; exact H.
  - destruct (differs f0 e n) eqn:D.
    + apply IH. destruct (decide (f = f0)) as [->|Hne].
      * right. apply differs_assign_same.
      * destruct H as [[H|H]|H]; [congruence | now left |].
        right. now rewrite differs_assign_other.
    + apply IH. destruct H as [[H|H]|H]; [subst; now right | now left | now right].
Qed.


Lemma update_fields_changed (fs : list field) (e n : NormalizedJob) (c : bool) :
  snd (update_fields fs e n c) = c || existsb (fun f => differs f e n) fs.
Proof.
  revert e c. induction fs as [|f0 rest IH]; intros e c; simpl.
  - now rewrite orb_false_r.
  - destruct (differs f0 e n) eqn:D.
    + rewrite IH. simpl. now rewrite orb_true_r.
    + now rewrite IH.
Qed.

Lemma all_fields (f : field) : In f updatable_fields.
Proof. destruct f; simpl; tauto. Qed.

Lemma assign_key (f : field) (e n : NormalizedJob) :
  source (assign f e n) = source e /\ external_id (assign f e n) = external_id e.
Proof. split; reflexivity. Qed.



End UpsertFacts.


(** ** The salary columns of [normalize_payload] *)

Section SalaryFacts.
Context {ext : Extern}.

(** C3, amended.  For every payload without a truthy [salary_range] entry
    of its own, the record [normalize_payload] produces has both salary
    columns null, or both integers with [salary_min <= salary_max]. *)
Theorem normalize_payload_salary (payload : gmap string pyval) (n : NormalizedJob) :
  truthy (get payload "salary_range") = false ->
  normalize_payload payload = Ok n ->
  salary_invariant n.
Proof.
  intros Hsr. unfold normalize_payload. rewrite Hsr.
  destruct (extract_salary_range _) as [[[lo hi]|]|e] eqn:Hx; cbn [bind]; [| |discriminate].
  - apply extract_salary_range_ordered in Hx.
    destruct (match get_or payload "tags" (PyList []) with
              | PyStr s => _ | _ => _ end) as [tag_list|e]; cbn [bind]; [|discriminate].
    intros H. injection H as <-. exact Hx.
  - destruct (match get_or payload "tags" (PyList []) with
              | PyStr s => _ | _ => _ end) as [tag_list|e]; cbn [bind]; [|discriminate].
    intros H. injection H as <-. exact I.
Qed.

End SalaryFacts.

Lemma normalize_payload_salary_witness :
  exists n,
    truthy (get lever_payload "salary_range") = false
    /\ @normalize_payload sample_extern lever_payload = Ok n
    /\ salary_invariant n.
Proof.
  destruct (@normalize_payload sample_extern lever_payload) as [n|e] eqn:E;
    [|vm_compute in E; discriminate].
  exists n. split; [reflexivity|]. split; [reflexivity|].
  apply (@normalize_payload_salary sample_extern lever_payload n);
    [reflexivity | exact E].
Defined.

(** C3, as stated, fails on a payload that brings its own salary range with
    the larger bound first: the range is stored as given. *)
Lemma normalize_payload_keeps_reversed_range :
  exists n,
    @normalize_payload sample_extern reversed_range_payload = Ok n
    /\ salary_min n = PyInt 100 /\ salary_max n = PyInt 50
    /\ ~ salary_invariant n.
Proof.
  eexists. split; [vm_compute; reflexivity|].
  split; [reflexivity|]. split; [reflexivity|].
  unfold salary_invariant. simpl. lia.
Qed.

(** ** [IngestionSource.ingest] *)

Section IngestFacts.
Context {ext : Extern}.

Lemma ingest_loop_counts (dry_run : bool) (payloads : list (gmap string pyval)) :
  forall (session s' : Session) (res r : IngestResult.t),
    ingest_loop dry_run payloads session res = Ok (s', r) ->
    IngestResult.balance r = IngestResult.balance res
    /\ IngestResult.fetched r = IngestResult.fetched res + Z.of_nat (length payloads)
    /\ IngestResult.source r = IngestResult.source res.
Proof.
  induction payloads as [|p rest IH]; intros session s' res r H.
  - simpl in H. injection H as <- <-. simpl length. split; [reflexivity|]. split; [lia|reflexivity].
  - cbn [ingest_loop] in H. destruct dry_run.
    + apply IH in H as (Hb & Hf & Hs). unfold IngestResult.balance in *.
      cbn [length]. rewrite Nat2Z.inj_succ. simpl in Hb, Hf, Hs.
      rewrite Hb, Hf, Hs. split; [|split]; [lia | lia | reflexivity].
    + destruct (upsert_job session p) as [[[s1 j1] st1]|e]; cbn [bind] in H; [|discriminate].
      apply IH in H as (Hb & Hf & Hs). unfold IngestResult.balance in *.
      cbn [length]. rewrite Nat2Z.inj_succ.
      destruct st1; simpl in Hb, Hf, Hs; rewrite Hb, Hf, Hs;
        (split; [|split]; [lia | lia | reflexivity]).
Qed.

Lemma ingest_loop_dry_run (payloads : list (gmap string pyval)) :
  forall (session : Session) (res : IngestResult.t),
    ingest_loop true payloads session res
    = Ok (session,
          {| IngestResult.source := IngestResult.source res;
             IngestResult.fetched := IngestResult.fetched res + Z.of_nat (length payloads);
             IngestResult.inserted := IngestResult.inserted res;
             IngestResult.updated := IngestResult.updated res;
             IngestResult.skipped := IngestResult.skipped res + Z.of_nat (length payloads) |}).
Proof.
  induction payloads as [|p rest IH]; intros session res.
  - simpl. rewrite !Z.add_0_r. now destruct res.
  - cbn [ingest_loop]. rewrite IH.
    unfold IngestResult.add_skipped, IngestResult.add_fetched.
    cbn [IngestResult.source IngestResult.fetched IngestResult.inserted
         IngestResult.updated IngestResult.skipped length].
    rewrite Nat2Z.inj_succ. do 2 f_equal. f_equal; lia.
Qed.




End IngestFacts.


(** ** [_build_ingestor] *)

Section BuildFacts.
Context {ext : Extern}.

Lemma entry_param_absent (m : gmap string pyval) (key : string) :
  m !! key = None -> truthy (entry_param (EntryMap m) key) = false.
Proof. intros H. unfold entry_param, get_or. rewrite H. reflexivity. Qed.

Lemma build_unknown (source : string) (entry : config_entry) :
  required_param source = None ->
  _build_ingestor source entry
  = Raise (ValueError ("Unsupported ingestion source: " ++ source)).
Proof.
  unfold required_param, _build_ingestor.
  destruct (String.eqb source "greenhouse"); [discriminate|].
  destruct (String.eqb source "lever"); [discriminate|].
  destruct (String.eqb source "workday"); [discriminate|]. reflexivity.
Qed.

Lemma build_lacking (source : string) (entry : config_entry) (key : string) :
  required_param source = Some key ->
  truthy (entry_param entry key) = false ->
  exists msg, _build_ingestor source entry = Raise (ValueError msg).
Proof.
  unfold required_param, _build_ingestor.
  destruct (String.eqb source "greenhouse");
    [|destruct (String.eqb source "lever");
      [|destruct (String.eqb source "workday"); [|discriminate]]];
    intros H; injection H as <-; intros ->; simpl; eauto.
Qed.

Lemma build_well_formed (source : string) (entry : config_entry) :
  well_formed_entry source entry ->
  exists a, _build_ingestor source entry = Ok a /\ adapter_source a = source.
Proof.
  unfold well_formed_entry, required_param, _build_ingestor.
  destruct (String.eqb source "greenhouse") eqn:G.
  { apply String.eqb_eq in G. intros [-> Hurl]. simpl negb. cbv iota.
    unfold new_GreenhouseIngestion.
    destruct (urlparse _) as [[path hostname]|]; [|congruence]. eauto. }
  destruct (String.eqb source "lever") eqn:L.
  { apply String.eqb_eq in L. intros [-> _]. simpl negb. cbv iota.
    unfold new_LeverIngestion. eauto. }
  destruct (String.eqb source "workday") eqn:W; [|tauto].
  apply String.eqb_eq in W. intros [-> Hurl]. simpl negb. cbv iota.
  unfold new_WorkdayIngestion.
  destruct (urlparse _) as [[path hostname]|]; [|congruence]. eauto.
Qed.

(** C9.  [_build_ingestor] raises [ValueError] for an unknown source
    identifier, and for a known one whose entry lacks the required parameter
    (absent from the mapping, or empty).  When it raises, the turn of
    [ingest_all] ends with that error and no adapter has been asked to fetch.
    For a well-formed entry it returns the adapter of that source. *)
Theorem build_ingestor_config_errors (source : string) (entry : config_entry) :
  (required_param source = None ->
   _build_ingestor source entry
   = Raise (ValueError ("Unsupported ingestion source: " ++ source)))
  /\ (forall key,
        required_param source = Some key ->
        (truthy (entry_param entry key) = false
         \/ exists m, entry = EntryMap m /\ m !! key = None) ->
        exists msg, _build_ingestor source entry = Raise (ValueError msg))
  /\ (forall e fetch dry_run session log,
        _build_ingestor source entry = Raise e ->
        ingest_entry fetch source entry dry_run session log = (Raise e, log))
  /\ (well_formed_entry source entry ->
      exists a, _build_ingestor source entry = Ok a /\ adapter_source a = source).
Proof.
  split; [apply build_unknown|]. split; [|split; [|apply build_well_formed]].
  - intros key Hkey [Hfalsy|(m & -> & Habs)].
    + eapply build_lacking; eauto.
    + eapply build_lacking; eauto using entry_param_absent.
  - intros e fetch dry_run session log H. unfold ingest_entry. now rewrite H.
Qed.

End BuildFacts.

Lemma build_ingestor_config_errors_witness :
  (exists msg,
     @_build_ingestor sample_extern "lever" (EntryMap ∅) = Raise (ValueError msg))
  /\ (exists a,
        @_build_ingestor sample_extern "greenhouse"
          (EntryStr "https://boards.greenhouse.io/acme/") = Ok a
        /\ adapter_source a = "greenhouse").
Proof.
  split.
  - destruct (@build_ingestor_config_errors sample_extern "lever" (EntryMap ∅))
      as (_ & H & _).
    apply (H "company"); [reflexivity|]. right. exists ∅. split; reflexivity.
  - destruct (@build_ingestor_config_errors sample_extern "greenhouse"
                (EntryStr "https://boards.greenhouse.io/acme/")) as (_ & _ & _ & H).
    apply H. split; [reflexivity|]. discriminate.
Defined.

(** ** The ranking step *)

Section SortFacts.
Context {A : Type} (key : A -> Q).

Lemma score_lt_iff (a b : Q) : score_lt a b = true <-> (a < b)%Q.
Proof.
  unfold score_lt. rewrite negb_true_iff. split.
  - intros H. apply Qnot_le_lt. intros Hle. apply Qle_bool_iff in Hle. congruence.
  - intros H. destruct (Qle_bool b a) eqn:E; [|reflexivity].
    apply Qle_bool_iff in E. exfalso. now apply (Qlt_not_le a b).
Qed.

Lemma score_lt_false_iff (a b : Q) : score_lt a b = false <-> (b <= a)%Q.
Proof.
  unfold score_lt. rewrite negb_false_iff. apply Qle_bool_iff.
Qed.

Lemma insert_desc_perm (x : A) (l : list A) :
  Permutation (insert_desc key x l) (x :: l).
Proof.
  induction l as [|y l IH]; simpl; [reflexivity|].
  destruct (score_lt (key x) (key y)); [|reflexivity].
  rewrite IH. apply perm_swap.
Qed.

Lemma sort_desc_perm (l : list A) : Permutation (sort_desc key l) l.
Proof.
  induction l as [|x l IH]; simpl; [reflexivity|].
  rewrite insert_desc_perm. now constructor.
Qed.

Lemma insert_desc_sorted (x : A) (l : list A) :
  StronglySorted (desc key) l -> StronglySorted (desc key) (insert_desc key x l).
Proof.
  induction 1 as [|y l Hs IH Hall]; simpl.
  - repeat constructor.
  - destruct (score_lt (key x) (key y)) eqn:E.
    + apply score_lt_iff in E. constructor; [exact IH|].
      apply List.Forall_forall. intros z Hz.
      apply (Permutation_in _ (insert_desc_perm x l)) in Hz.
      destruct Hz as [<-|Hz].
      * unfold desc. now apply Qlt_le_weak.
      * rewrite List.Forall_forall in Hall. now apply Hall.
    + apply score_lt_false_iff in E. constructor; [now constructor|].
      constructor; [exact E|].
      apply List.Forall_forall. intros z Hz. rewrite List.Forall_forall in Hall.
      unfold desc in *. eapply Qle_trans; [apply Hall, Hz | exact E].
Qed.

Lemma sort_desc_sorted (l : list A) : StronglySorted (desc key) (sort_desc key l).
Proof.
  induction l as [|x l IH]; simpl; [constructor|]. now apply insert_desc_sorted.
Qed.

(** [insert_desc] moves [x] only past elements whose key is strictly
    greater, so it never crosses an element with the same key. *)
Lemma insert_desc_stable (s : Q) (x : A) (l : list A) :
  List.filter (same_key key s) (insert_desc key x l)
  = List.filter (same_key key s) (x :: l).
Proof.
  induction l as [|y l IH]; [reflexivity|]. cbn [insert_desc].
  destruct (score_lt (key x) (key y)) eqn:E; [|reflexivity].
  apply score_lt_iff in E. cbn [List.filter] in *. rewrite IH.
  destruct (same_key key s x) eqn:Ex; [|reflexivity].
  destruct (same_key key s y) eqn:Ey; [|reflexivity].
  unfold same_key in Ex, Ey. apply Qeq_bool_iff in Ex, Ey.
  exfalso. rewrite Ex, Ey in E. now apply (Qlt_irrefl s).
Qed.

Lemma sort_desc_stable (s : Q) (l : list A) :
  List.filter (same_key key s) (sort_desc key l) = List.filter (same_key key s) l.
Proof.
  induction l as [|x l IH]; [reflexivity|].
  change (sort_desc key (x :: l)) with (insert_desc key x (sort_desc key l)).
  rewrite insert_desc_stable. cbn [List.filter]. now rewrite IH.
Qed.

End SortFacts.

(** C7.  The ranked list is a rearrangement of the candidates that
    survive the three filters, in decreasing score order, and for every score
    the candidates having that score appear in the same order as they left the
    title filter. *)
Theorem rank_candidates_stable (settings : AppSettings) (threshold : Q)
  (job_candidates : list Candidate.t) :
  let title_filtered :=
    filter_by_title_keywords
      (filter_by_min_score
         (filter_by_geo job_candidates (geo_filter_keywords settings)) threshold)
      (title_keywords settings) in
  let ranked := rank_candidates settings threshold job_candidates in
  Permutation ranked title_filtered
  /\ StronglySorted (fun a b => (Candidate.score b <= Candidate.score a)%Q) ranked
  /\ forall s : Q,
       List.filter (fun c => Qeq_bool (Candidate.score c) s) ranked
       = List.filter (fun c => Qeq_bool (Candidate.score c) s) title_filtered.
Proof.
  intros title_filtered ranked. subst ranked. unfold rank_candidates.
  fold title_filtered. split; [apply sort_desc_perm|]. split.
  - apply (sort_desc_sorted Candidate.score).
  - intros s. apply (sort_desc_stable Candidate.score).
Qed.

(** ** The geo filter and the title filter *)

Lemma nonempty_true_iff (s : string) : Text.nonempty s = true <-> s <> EmptyString.
Proof. destruct s; simpl; split; congruence. Qed.

Lemma in_normalize (values : list string) (m : string) :
  In m (_normalize values)
  <-> exists raw, In raw values /\ Text.strip raw <> EmptyString /\ m = Text.strip raw.
Proof.
  unfold _normalize. rewrite in_map_iff. split.
  - intros (raw & <- & Hin). apply filter_In in Hin as [Hin Hne].
    apply andb_prop in Hne as [_ Hne]. apply nonempty_true_iff in Hne. eauto.
  - intros (raw & Hin & Hne & ->). exists raw. split; [reflexivity|].
    apply filter_In. split; [exact Hin|].
    apply andb_true_intro. split; [|now apply nonempty_true_iff].
    destruct raw; [|reflexivity]. now contradict Hne.
Qed.

Lemma normalize_nil_iff (values : list string) :
  _normalize values = [] <-> forall raw, In raw values -> Text.strip raw = EmptyString.
Proof.
  split.
  - intros H raw Hin. destruct (Text.strip raw) eqn:E; [reflexivity|].
    assert (In (Text.strip raw) (_normalize values)) as Hm.
    { apply in_normalize. exists raw. rewrite E. repeat split; [assumption|discriminate]. }
    rewrite H in Hm. destruct Hm.
  - intros H. destruct (_normalize values) as [|m ms] eqn:E; [reflexivity|].
    assert (In m (_normalize values)) as Hm by (rewrite E; now left).
    apply in_normalize in Hm as (raw & Hin & Hne & _). now apply H in Hin.
Qed.

Lemma existsb_markers (markers : list string) (text : string) :
  existsb (fun m => Text.contains m (Text.lower text))
          (map Text.lower (_normalize markers)) = true
  <-> has_marker markers text.
Proof.
  rewrite existsb_exists. unfold has_marker, contains_nocase. split.
  - intros (m & Hin & Hc). apply in_map_iff in Hin as (m' & <- & Hin).
    apply in_normalize in Hin as (raw & Hin & Hne & ->). eauto.
  - intros (raw & Hin & Hne & Hc). exists (Text.lower (Text.strip raw)).
    split; [|exact Hc]. apply in_map. apply in_normalize. eauto.
Qed.





(** ** The scorer *)

Module ScorerFacts.
Import Scorer.
#[local] Open Scope R_scope.



Lemma cosine_similarity_zero (a b : list R) :
  norm a = 0 \/ norm b = 0 -> cosine_similarity a b = Ok 0.
Proof.
  intros H. unfold cosine_similarity.
  destruct (Req_dec_T (norm a * norm b) 0) as [_|Hne]; [reflexivity|].
  exfalso. apply Hne. destruct H as [-> | ->]; ring.
Qed.



Lemma cosine_similarity_returns (a b : list R) :
  length a = length b -> returns (cosine_similarity a b).
Proof.
  intros Hlen. unfold cosine_similarity.
  destruct (Req_dec_T _ 0); [exact I|].
  unfold dot. rewrite Hlen, Nat.eqb_refl. exact I.
Qed.





Lemma clamp01_max_min (x : R) : Rmax 0 (Rmin 1 x) = clamp01 x.
Proof.
  unfold clamp01, Rmax, Rmin.
  destruct (Rlt_dec x 0), (Rlt_dec 1 x), (Rle_dec 1 x);
    try lra; destruct (Rle_dec 0 1); destruct (Rle_dec 0 x); lra.
Qed.

Lemma clamp01_range (x : R) : 0 <= clamp01 x <= 1.
Proof.
  unfold clamp01. destruct (Rlt_dec x 0); [lra|]. destruct (Rlt_dec 1 x); lra.
Qed.

Section ScoreFacts.
Variable tfidf : string -> string -> result (list R * list R).
Variable settings : AppSettings.

(** C5.  Whatever the texts, the keywords, the weights and the vectors, the
    [score] of a returned [ScoreResult] is
    [clamp(cosine_weight * cosine + keyword_weight * keyword_ratio, 0, 1)]
    over the two components the result reports, and lies in [[0, 1]]; the
    cosine component is the cosine similarity of the given vectors and the
    keyword ratio is the share of the normalized keywords found in the job
    text. *)
Theorem score_clamped (job_text profile_skills : string) (keywords_list : list string)
  (job_vector profile_vector : option (list R)) (r : ScoreResult.t) :
  score tfidf settings job_text profile_skills keywords_list job_vector profile_vector
  = Ok r ->
  ScoreResult.score r
  = clamp01 (cosine_weight settings * ScoreResult.cosine_similarity r
             + keyword_weight settings * ScoreResult.keyword_weight r)
  /\ 0 <= ScoreResult.score r <= 1
  /\ (forall jv pv, job_vector = Some jv -> profile_vector = Some pv ->
      cosine_similarity jv pv = Ok (ScoreResult.cosine_similarity r))
  /\ ScoreResult.matched_keywords r
     = _keyword_hits job_text (_normalize_keywords keywords_list)
  /\ ScoreResult.keyword_weight r
     = match _normalize_keywords keywords_list with
       | [] => 0
       | _ :: _ =>
           INR (length (ScoreResult.matched_keywords r))
           / INR (length (_normalize_keywords keywords_list))
       end.
Proof.
  unfold score.
  set (vectors := match job_vector, profile_vector with
                  | Some jv, Some pv => Ok (jv, pv)
                  | _, _ => tfidf job_text profile_skills
                  end).
  destruct vectors as [[jv pv]|e] eqn:Hv; cbn [bind]; [|discriminate].
  cbn [fst snd].
  destruct (cosine_similarity jv pv) as [cosine|e] eqn:Hc; cbn [bind]; [|discriminate].
  intros H. injection H as <-. cbn [ScoreResult.score ScoreResult.cosine_similarity
    ScoreResult.keyword_weight ScoreResult.matched_keywords].
  rewrite clamp01_max_min. split; [reflexivity|]. split; [apply clamp01_range|].
  split; [|split; [reflexivity|]].
  - intros jv' pv' -> ->. subst vectors. injection Hv as <- <-. exact Hc.
  - destruct (_normalize_keywords keywords_list); reflexivity.
Qed.

Lemma score_returns (job_text profile_skills : string) (keywords_list : list string)
  (jv pv : list R) :
  length jv = length pv ->
  returns (score tfidf settings job_text profile_skills keywords_list (Some jv) (Some pv)).
Proof.
  intros Hlen. unfold score. cbn [bind fst snd].
  pose proof (cosine_similarity_returns jv pv Hlen) as Hr.
  destruct (cosine_similarity jv pv) as [c|e]; [exact I|destruct Hr].
Qed.

End ScoreFacts.

Lemma norm_zero : norm [0] = 0.
Proof.
  unfold norm. simpl. replace (0 * 0 + 0) with 0 by ring. apply sqrt_0.
Qed.

Lemma score_example :
  score no_tfidf heavy_weights "PHP developer" "" ["php"; "rust"]
        (Some [0]) (Some [0])
  = Ok {| ScoreResult.score := Rmax 0 (Rmin 1 (9 / 10 * 0 + 9 / 10 * (INR 1 / INR 2)));
          ScoreResult.cosine_similarity := 0;
          ScoreResult.keyword_weight := INR 1 / INR 2;
          ScoreResult.matched_keywords := ["php"] |}.
Proof.
  unfold score. cbn [bind fst snd].
  rewrite (cosine_similarity_zero [0] [0]) by (left; apply norm_zero).
  reflexivity.
Qed.

Lemma score_clamped_witness :
  exists r,
    score no_tfidf heavy_weights "PHP developer" "" ["php"; "rust"]
          (Some [0]) (Some [0]) = Ok r
    /\ 0 <= ScoreResult.score r <= 1.
Proof.
  eexists. split; [apply score_example|].
  destruct (score_clamped no_tfidf heavy_weights _ _ _ _ _ _ score_example)
    as (_ & H & _).
  exact H.
Defined.

End ScorerFacts.

(** * Further properties *)

(** ** Salaries are never negative *)

Lemma of_ratio_nonneg (num den : Z) :
  0 <= num -> 0 < den ->
  match Float.of_ratio num den with
  | Float.Finite m _ => 0 <= m
  | Float.Inf => True
  end.
Proof.
  intros Hn Hd. unfold Float.of_ratio.
  destruct (num =? 0); [simpl; lia|].
  set (e := Z.max _ _).
  destruct (0 <=? e) eqn:E.
  - apply Z.leb_le in E.
    assert (0 < den * 2 ^ e) by (apply Z.mul_pos_pos; [lia | apply Z.pow_pos_nonneg; lia]).
    destruct (2 ^ 1024 <=? _); [exact I|].
    now apply FloatFacts.round_half_even_nonneg.
  - apply Z.leb_gt in E.
    assert (0 < 2 ^ (- e)) by (apply Z.pow_pos_nonneg; lia).
    apply FloatFacts.round_half_even_nonneg; nia.
Qed.

Lemma py_round_nonneg (x : Float.b64) (n : Z) :
  match x with Float.Finite m _ => 0 <= m | Float.Inf => True end ->
  Float.py_round x = Ok n -> 0 <= n.
Proof.
  destruct x as [m e|]; simpl; [|discriminate].
  intros Hm H. injection H as <-.
  destruct (0 <=? e) eqn:E.
  - apply Z.leb_le in E. assert (0 < 2 ^ e) by (apply Z.pow_pos_nonneg; lia). nia.
  - apply Z.leb_gt in E. apply FloatFacts.round_half_even_nonneg; [lia|].
    apply Z.pow_pos_nonneg; lia.
Qed.

Lemma _to_int_nonneg (value : string) (suffix : option ascii) (n : Z) :
  _to_int value suffix = Ok n -> 0 <= n.
Proof.
  unfold _to_int.
  set (s := Text.remove_char "," value).
  assert (match Float.of_decimal s with
          | Float.Finite m _ => 0 <= m | Float.Inf => True end) as H0.
  { unfold Float.of_decimal. destruct (Text.span _ s) as [ip rest].
    apply of_ratio_nonneg.
    - pose proof (FloatFacts.digits_val_bound
        (ip ++ match rest with String _ f => f | EmptyString => EmptyString end) 0
        ltac:(lia)). lia.
    - apply Z.pow_pos_nonneg; lia. }
  assert (match Float.mul1000 (Float.of_decimal s) with
          | Float.Finite m _ => 0 <= m | Float.Inf => True end) as H1.
  { destruct (Float.of_decimal s) as [m e|]; [|exact I]. simpl.
    destruct (0 <=? e) eqn:E.
    - apply Z.leb_le in E. assert (0 < 2 ^ e) by (apply Z.pow_pos_nonneg; lia).
      apply of_ratio_nonneg; nia.
    - apply Z.leb_gt in E. apply of_ratio_nonneg; [lia|].
      apply Z.pow_pos_nonneg; lia. }
  destruct suffix as [c|]; [|now apply py_round_nonneg].
  destruct (Ascii.eqb (Text.lower_char c) "k"); now apply py_round_nonneg.
Qed.

(** X1.  The bounds [extract_salary_range] returns are never negative: the
    patterns admit no sign, and rounding a non-negative amount gives a
    non-negative integer. *)
Theorem extract_salary_range_nonneg (text : string) (lo hi : Z) :
  extract_salary_range text = Ok (Some (lo, hi)) -> 0 <= lo /\ 0 <= hi.
Proof.
  unfold extract_salary_range.
  destruct (negb (Text.nonempty text)); [discriminate|].
  destruct (search match_range_at text) as [m|].
  - destruct (_to_int (low m) (lowsuffix m)) as [a|] eqn:Ha; [|discriminate].
    destruct (_to_int (high m) (highsuffix m)) as [b|] eqn:Hb; [|discriminate].
    apply _to_int_nonneg in Ha, Hb. cbn [bind].
    destruct (b <? a); intros H; injection H as <- <-; lia.
  - destruct (search match_single_at text) as [[v sfx]|]; [|discriminate].
    destruct (_to_int v sfx) as [a|] eqn:Ha; [|discriminate].
    apply _to_int_nonneg in Ha. cbn [bind]. intros H; injection H as <- <-. lia.
Qed.

Lemma extract_salary_range_nonneg_witness :
  extract_salary_range "Up to $105k - $85k" = Ok (Some (85000, 105000))
  /\ 0 <= 85000 /\ 0 <= 105000.
Proof.
  assert (extract_salary_range "Up to $105k - $85k" = Ok (Some (85000, 105000))) as H
    by (vm_compute; reflexivity).
  split; [exact H|]. exact (extract_salary_range_nonneg _ _ _ H).
Defined.

(** The only exception [extract_salary_range] raises is [OverflowError]. *)
Lemma _to_int_raises (value : string) (suffix : option ascii) (e : exn) :
  _to_int value suffix = Raise e -> e = OverflowError.
Proof.
  unfold _to_int.
  assert (forall x, Float.py_round x = Raise e -> e = OverflowError) as H.
  { intros [m ex|]; simpl; [discriminate|]. intros H; now injection H. }
  destruct suffix as [c|]; [|apply H].
  destruct (Ascii.eqb (Text.lower_char c) "k"); apply H.
Qed.

Lemma extract_salary_range_raises (text : string) (e : exn) :
  extract_salary_range text = Raise e -> e = OverflowError.
Proof.
  unfold extract_salary_range.
  destruct (negb (Text.nonempty text)); [discriminate|].
  destruct (search match_range_at text) as [m|].
  - destruct (_to_int (low m) (lowsuffix m)) as [a|e1] eqn:Ha; cbn [bind].
    + destruct (_to_int (high m) (highsuffix m)) as [b|e2] eqn:Hb; cbn [bind].
      * destruct (b <? a); discriminate.
      * intros H; injection H as <-. eapply _to_int_raises; eauto.
    + intros H; injection H as <-. eapply _to_int_raises; eauto.
  - destruct (search match_single_at text) as [[v sfx]|]; [|discriminate].
    destruct (_to_int v sfx) as [a|e1] eqn:Ha; cbn [bind]; [discriminate|].
    intros H; injection H as <-. eapply _to_int_raises; eauto.
Qed.

(** ** [normalize_location] *)

Lemma starts_with_app (p x : string) : Text.starts_with p (p ++ x) = true.
Proof.
  induction p as [|c p IH]; [reflexivity|].
  change (String c p ++ x) with (String c (p ++ x)). simpl.
  now rewrite Ascii.eqb_refl.
Qed.

Lemma app_nonempty_l (p x : string) : p <> EmptyString -> p ++ x <> EmptyString.
Proof. destruct p as [|c p]; [congruence|]. intros _. discriminate. Qed.

Lemma join_nonempty (sep w : string) (ws : list string) :
  w <> EmptyString -> Text.join sep (w :: ws) <> EmptyString.
Proof.
  intros Hw. destruct ws as [|w' ws]; simpl; [exact Hw|]. now apply app_nonempty_l.
Qed.

Lemma tokenise_head (location t : string) (ts : list string) :
  _tokenise location = t :: ts -> t <> EmptyString.
Proof.
  unfold _tokenise. intros H.
  assert (In t (List.filter Text.nonempty
                  (map Text.strip (Text.split_on is_token_sep location)))) as Hin
    by (rewrite H; now left).
  apply filter_In in Hin as [_ Hne]. destruct t; [discriminate|discriminate].
Qed.

Lemma normalize_location_shape (location : string) :
  let d := normalize_location location in
  normalized d <> EmptyString
  /\ (is_remote d = true ->
      normalized d = "Remote" \/ Text.starts_with "Remote - " (normalized d) = true)
  /\ (kind d = KHybrid ->
      normalized d = "Unknown" \/ Text.starts_with "Hybrid - " (normalized d) = true)
  /\ (kind d = KOnSite ->
      normalized d = "Unknown"
      \/ normalized d = Text.join ", " (fromkeys (_tokenise (Text.strip location))))
  /\ (city d = None -> normalized d = "Unknown" \/ normalized d = "Remote").
Proof.
  cbv zeta. unfold normalize_location.
  cbn [normalized is_remote kind city].
  set (raw := Text.strip location).
  set (rem := existsb _ REMOTE_KEYWORDS).
  set (hyb := existsb _ HYBRID_KEYWORDS).
  destruct (_tokenise raw) as [|t ts] eqn:Htok.
  - destruct rem, hyb; cbv; repeat split; try discriminate; auto.
  - pose proof (tokenise_head _ _ _ Htok) as Ht.
    assert (Text.join ", " (fromkeys (t :: ts)) <> EmptyString) as Hj
      by (simpl fromkeys; now apply join_nonempty).
    set (j := Text.join ", " (fromkeys (t :: ts))) in *.
    cbn [nth_error].
    destruct rem, hyb; cbn [negb andb];
      try (destruct (String.eqb j "Remote") eqn:E;
           [apply String.eqb_eq in E|]; cbn [negb andb]);
      try (destruct (String.eqb j "Unknown") eqn:E';
           [apply String.eqb_eq in E'|]; cbn [negb andb]);
      repeat split;
      first [ congruence
            | now apply app_nonempty_l
            | (intros _; right; apply starts_with_app)
            | (intros _; left; assumption)
            | (intros _; right; reflexivity) ].
Qed.

(** X2.  The display string of [normalize_location] is never empty, and its
    shape follows the kind: a remote location reads "Remote" or starts with
    "Remote - ", a hybrid one reads "Unknown" or starts with "Hybrid - ", an
    on-site one reads "Unknown" or is its distinct tokens joined by ", ";
    without a city the display is "Unknown" or "Remote". *)
Theorem normalize_location_display (location : string) :
  let d := normalize_location location in
  normalized d <> EmptyString
  /\ (is_remote d = true ->
      normalized d = "Remote" \/ Text.starts_with "Remote - " (normalized d) = true)
  /\ (kind d = KHybrid ->
      normalized d = "Unknown" \/ Text.starts_with "Hybrid - " (normalized d) = true)
  /\ (kind d = KOnSite ->
      normalized d = "Unknown"
      \/ normalized d = Text.join ", " (fromkeys (_tokenise (Text.strip location))))
  /\ (city d = None -> normalized d = "Unknown" \/ normalized d = "Remote").
Proof. exact (normalize_location_shape location). Qed.

(** ** [normalize_payload] *)

Section PayloadFacts.
Context {ext : Extern}.

(** What a returned record holds in the columns that do not depend on the
    salary and the tags. *)
Lemma normalize_payload_columns (payload : gmap string pyval) (n : NormalizedJob) :
  normalize_payload payload = Ok n ->
  source n = py_str (get_or payload "source" (PyStr "unknown"))
  /\ external_id n = py_str (get_or payload "external_id" (PyStr ""))
  /\ company n
     = (if Text.nonempty (py_str (get_or payload "company" (PyStr "")))
        then py_str (get_or payload "company" (PyStr "")) else "Unknown")
  /\ location n
     = normalized (normalize_location (py_str (get_or payload "location" (PyStr ""))))
  /\ remote n
     = truthy (get_or payload "remote"
                 (PyBool (is_remote
                    (normalize_location (py_str (get_or payload "location" (PyStr "")))))))
  /\ posted_at n = _coerce_datetime (get payload "posted_at").
Proof.
  unfold normalize_payload.
  destruct (if truthy (get payload "salary_range") then _ else _) as [sr|e];
    cbn [bind]; [|discriminate].
  destruct (match get_or payload "tags" (PyList []) with
            | PyStr s => _ | _ => _ end) as [tag_list|e]; cbn [bind]; [|discriminate].
  destruct (if truthy sr then py_index sr 0 else Ok PyNone) as [smin|e];
    cbn [bind]; [|discriminate].
  destruct (if truthy sr then py_index sr 1 else Ok PyNone) as [smax|e];
    cbn [bind]; [|discriminate].
  intros H. injection H as <-. cbn. repeat split.
Qed.

(** X3.  A record [normalize_payload] returns never has an empty company or
    an empty location: a missing or empty company becomes "Unknown", and the
    location is a display string of [normalize_location]. *)
Theorem normalize_payload_never_blank (payload : gmap string pyval) (n : NormalizedJob) :
  normalize_payload payload = Ok n ->
  company n <> EmptyString /\ location n <> EmptyString.
Proof.
  intros H. apply normalize_payload_columns in H as (_ & _ & Hc & Hl & _).
  split.
  - rewrite Hc. destruct (py_str _) eqn:E; simpl; discriminate.
  - rewrite Hl. apply normalize_location_shape.
Qed.

(** X4.  The exceptions of [normalize_payload], for a payload without a
    truthy [salary_range] of its own.  With tags that can be iterated (a
    string, list, tuple or mapping, or no tags at all) the call returns,
    unless the salary text holds an amount too large for a float, which
    raises [OverflowError].  With any other tags value, [None] included, it
    raises: [TypeError], or [OverflowError] from the salary text, which is
    read first. *)
Theorem normalize_payload_errors (payload : gmap string pyval) :
  truthy (get payload "salary_range") = false ->
  (tags_iterable (get_or payload "tags" (PyList [])) = true ->
   returns (normalize_payload payload)
   \/ normalize_payload payload = Raise OverflowError)
  /\ (tags_iterable (get_or payload "tags" (PyList [])) = false ->
      normalize_payload payload = Raise TypeError
      \/ normalize_payload payload = Raise OverflowError).
Proof.
  intros Hsr. unfold normalize_payload. rewrite Hsr.
  destruct (extract_salary_range _) as [r|e] eqn:Hx; cbn [bind].
  - assert (exists sr, (match r with
                        | Some (lo, hi) => PyTuple [PyInt lo; PyInt hi]
                        | None => PyNone end) = sr
                       /\ (if truthy sr then py_index sr 0 else Ok PyNone) <> Raise TypeError
                       /\ returns (if truthy sr then py_index sr 0 else Ok PyNone)
                       /\ returns (if truthy sr then py_index sr 1 else Ok PyNone))
      as (sr & -> & _ & H0 & H1).
    { eexists. split; [reflexivity|]. destruct r as [[lo hi]|]; simpl; repeat split; discriminate. }
    split; intros Ht.
    + left. destruct (get_or payload "tags" (PyList [])); try discriminate Ht;
        cbn [py_iter bind];
        (destruct (if truthy sr then py_index sr 0 else Ok PyNone); [|destruct H0]);
        (destruct (if truthy sr then py_index sr 1 else Ok PyNone); [|destruct H1]);
        exact I.
    + left. destruct (get_or payload "tags" (PyList [])); try discriminate Ht; reflexivity.
  - apply extract_salary_range_raises in Hx as ->. split; intros _; right; reflexivity.
Qed.

End PayloadFacts.

Lemma normalize_payload_never_blank_witness :
  exists n,
    @normalize_payload sample_extern lever_payload = Ok n
    /\ company n <> EmptyString /\ location n <> EmptyString.
Proof.
  destruct (@normalize_payload sample_extern lever_payload) as [n|e] eqn:E;
    [|vm_compute in E; discriminate].
  exists n. split; [reflexivity|].
  exact (@normalize_payload_never_blank sample_extern lever_payload n E).
Defined.

Lemma normalize_payload_errors_witness :
  truthy (get lever_payload "salary_range") = false
  /\ (returns (@normalize_payload sample_extern lever_payload)
      \/ @normalize_payload sample_extern lever_payload = Raise OverflowError).
Proof.
  split; [reflexivity|].
  apply (proj1 (@normalize_payload_errors sample_extern lever_payload eq_refl)).
  reflexivity.
Defined.

(** ** What [upsert_job] stores *)

Section StoreFacts.
Context {ext : Extern}.

Lemma normalize_payload_key (payload : gmap string pyval) (n : NormalizedJob) :
  normalize_payload payload = Ok n ->
  (source n, external_id n) = natural_key payload.
Proof.
  intros H. apply normalize_payload_columns in H as (Hs & He & _).
  unfold natural_key. now rewrite Hs, He.
Qed.

Lemma update_fields_key (fs : list field) (e n : NormalizedJob) (c : bool) :
  source (fst (update_fields fs e n c)) = source e
  /\ external_id (fst (update_fields fs e n c)) = external_id e.
Proof.
  revert e c. induction fs as [|f rest IH]; intros e c; simpl; [auto|].
  destruct (differs f e n); [|apply IH].
  destruct (IH (assign f e n) true) as [-> ->]. split; reflexivity.
Qed.

Lemma existsb_false_forall {A : Type} (p : A -> bool) (l : list A) :
  existsb p l = false -> forall x, In x l -> p x = false.
Proof.
  intros H x Hx. destruct (p x) eqn:E; [|reflexivity].
  assert (existsb p l = true) by (apply existsb_exists; eauto). congruence.
Qed.

Lemma upsert_job_row (session s1 : Session) (payload : gmap string pyval)
  (j1 : Job) (st1 : Status.t) (n : NormalizedJob) :
  normalize_payload payload = Ok n ->
  upsert_job session payload = Ok (s1, j1, st1) ->
  jobs s1 !! natural_key payload = Some j1
  /\ (forall f, differs f (fields j1) n = false)
  /\ (forall existing,
        jobs session !! natural_key payload = Some existing ->
        id j1 = id existing /\ created_at j1 = created_at existing
        /\ source (fields j1) = source (fields existing)
        /\ external_id (fields j1) = external_id (fields existing)
        /\ (st1 = Status.unchanged -> j1 = existing /\ s1 = session))
  /\ (jobs session !! natural_key payload = None -> fields j1 = n).
Proof.
  intros Hn. pose proof (normalize_payload_key _ _ Hn) as Hkey.
  unfold upsert_job. rewrite Hn. cbn [bind]. rewrite Hkey.
  destruct (jobs session !! natural_key payload) as [existing|] eqn:Hlook.
  - pose proof (update_fields_changed updatable_fields (fields existing) n false) as Hch.
    pose proof (update_fields_key updatable_fields (fields existing) n false) as [Hks Hke].
    pose proof (fun f => update_fields_settled updatable_fields (fields existing) n false f
                           (or_introl (all_fields f))) as Hset.
    destruct (update_fields updatable_fields (fields existing) n false)
      as [assigned changed] eqn:Hup.
    cbn [fst snd] in Hch, Hks, Hke, Hset. destruct changed.
    + intros H. injection H as <- <- <-. cbn [jobs fields id created_at].
      rewrite lookup_insert_eq. split; [reflexivity|]. split; [exact Hset|].
      split; [|discriminate].
      intros ex Hex. injection Hex as <-.
      split; [reflexivity|]. split; [reflexivity|]. split; [exact Hks|].
      split; [exact Hke|]. discriminate.
    + intros H. injection H as <- <- <-. split; [exact Hlook|]. split.
      * intros f. symmetry in Hch.
        apply (existsb_false_forall (fun f => differs f (fields existing) n)
                 updatable_fields Hch f (all_fields f)).
      * split; [|discriminate]. intros ex Hex. injection Hex as <-.
        repeat split; reflexivity.
  - intros H. injection H as <- <- <-. cbn [jobs fields].
    rewrite lookup_insert_eq. split; [reflexivity|].
    split; [intros f; apply differs_refl|]. split; [discriminate|reflexivity].
Qed.

(** X5.  What [upsert_job] leaves in the table.  After a call that returns,
    the row under the payload's natural key is the returned job, and it
    agrees with the normalized payload on every updatable column.  A row
    that existed keeps its identifier, its creation time, its source and
    its external identifier, and with status [unchanged] the row and the
    whole session are exactly as before; a new row holds the normalized
    payload. *)
Theorem upsert_job_stores (session s1 : Session) (payload : gmap string pyval)
  (j1 : Job) (st1 : Status.t) (n : NormalizedJob) :
  normalize_payload payload = Ok n ->
  upsert_job session payload = Ok (s1, j1, st1) ->
  jobs s1 !! natural_key payload = Some j1
  /\ (forall f, differs f (fields j1) n = false)
  /\ (forall existing,
        jobs session !! natural_key payload = Some existing ->
        id j1 = id existing /\ created_at j1 = created_at existing
        /\ source (fields j1) = source (fields existing)
        /\ external_id (fields j1) = external_id (fields existing)
        /\ (st1 = Status.unchanged -> j1 = existing /\ s1 = session))
  /\ (jobs session !! natural_key payload = None -> fields j1 = n).
Proof. exact (upsert_job_row session s1 payload j1 st1 n). Qed.

Lemma upsert_job_others (session s1 : Session) (payload : gmap string pyval)
  (j1 : Job) (st1 : Status.t) :
  upsert_job session payload = Ok (s1, j1, st1) ->
  (forall key, key <> natural_key payload -> jobs s1 !! key = jobs session !! key)
  /\ size (jobs s1)
     = (size (jobs session)
        + match st1 with Status.inserted => 1 | _ => 0 end)%nat
  /\ writes s1
     = (writes session + match st1 with Status.unchanged => 0 | _ => 1 end)%nat
  /\ (session_keyed session -> session_keyed s1).
Proof.
  unfold upsert_job.
  destruct (normalize_payload payload) as [n|e] eqn:Hn; cbn [bind]; [|discriminate].
  pose proof (normalize_payload_key _ _ Hn) as Hkey. rewrite Hkey.
  destruct (jobs session !! natural_key payload) as [existing|] eqn:Hlook.
  - pose proof (update_fields_key updatable_fields (fields existing) n false) as [Hks Hke].
    destruct (update_fields updatable_fields (fields existing) n false)
      as [assigned changed] eqn:Hup.
    cbn [fst snd] in Hks, Hke. destruct changed.
    + intros H. injection H as <- <- <-. cbn [jobs writes]. repeat split.
      * intros key Hne. now rewrite lookup_insert_ne.
      * rewrite map_size_insert_Some by eauto. lia.
      * lia.
      * unfold session_keyed. cbn [jobs]. intros Hk key job.
        destruct (decide (key = natural_key payload)) as [->|Hne].
        -- rewrite lookup_insert_eq. intros H. injection H as <-. cbn [fields].
           rewrite Hks, Hke. now apply Hk.
        -- rewrite lookup_insert_ne by congruence. apply Hk.
    + intros H. injection H as <- <- <-. repeat split; auto; lia.
  - intros H. injection H as <- <- <-. cbn [jobs writes]. repeat split.
    + intros key Hne. now rewrite lookup_insert_ne.
    + rewrite map_size_insert_None by assumption. lia.
    + lia.
    + unfold session_keyed. cbn [jobs]. intros Hk key job.
        destruct (decide (key = natural_key payload)) as [->|Hne].
      * rewrite lookup_insert_eq. intros H. injection H as <-. exact Hkey.
      * rewrite lookup_insert_ne by congruence. apply Hk.
Qed.

(** X6.  What [upsert_job] leaves alone.  Rows under other natural keys are
    untouched; the table grows by one row exactly when the status is
    [inserted]; the session is written to unless the status is [unchanged];
    and if every row lay under its own natural key before, so it does
    after. *)
Theorem upsert_job_frame (session s1 : Session) (payload : gmap string pyval)
  (j1 : Job) (st1 : Status.t) :
  upsert_job session payload = Ok (s1, j1, st1) ->
  (forall key, key <> natural_key payload -> jobs s1 !! key = jobs session !! key)
  /\ size (jobs s1)
     = (size (jobs session)
        + match st1 with Status.inserted => 1 | _ => 0 end)%nat
  /\ writes s1
     = (writes session + match st1 with Status.unchanged => 0 | _ => 1 end)%nat
  /\ (session_keyed session -> session_keyed s1).
Proof. exact (upsert_job_others session s1 payload j1 st1). Qed.

End StoreFacts.

(** ** Runs of [ingest] over feeds without repeated natural keys *)

Section RunFacts.
Context {ext : Extern}.


Lemma upsert_job_inserted_iff (session s1 : Session) (payload : gmap string pyval)
  (j1 : Job) (st1 : Status.t) :
  upsert_job session payload = Ok (s1, j1, st1) ->
  st1 = Status.inserted <-> jobs session !! natural_key payload = None.
Proof.
  unfold upsert_job.
  destruct (normalize_payload payload) as [n|e] eqn:Hn; cbn [bind]; [|discriminate].
  rewrite (normalize_payload_key _ _ Hn).
  destruct (jobs session !! natural_key payload) as [existing|].
  - destruct (update_fields _ _ _ _) as [assigned []];
      intros H; injection H as <- <- <-; split; discriminate.
  - intros H; injection H as <- <- <-. split; reflexivity.
Qed.







Lemma ingest_loop_effect (payloads : list (gmap string pyval)) :
  List.NoDup (map natural_key payloads) ->
  forall (session s1 : Session) (res r : IngestResult.t),
    ingest_loop false payloads session res = Ok (s1, r) ->
    (forall key, ~ In key (map natural_key payloads) ->
                 jobs s1 !! key = jobs session !! key)
    /\ IngestResult.inserted r
       = IngestResult.inserted res
         + Z.of_nat (length (new_payloads session payloads))
    /\ Z.of_nat (size (jobs s1))
       = Z.of_nat (size (jobs session))
         + Z.of_nat (length (new_payloads session payloads))
    /\ Z.of_nat (writes s1)
       = Z.of_nat (writes session)
         + (IngestResult.inserted r - IngestResult.inserted res)
         + (IngestResult.updated r - IngestResult.updated res)
    /\ (session_keyed session -> session_keyed s1).
Proof.
  induction payloads as [|p rest IH]; intros Hnd session s1 res r H.
  - simpl in H. injection H as <- <-. simpl. repeat split; auto; lia.
  - change (map natural_key (p :: rest))
      with (natural_key p :: map natural_key rest) in Hnd.
    apply List.NoDup_cons_iff in Hnd as [Hp Hrest]. cbn [ingest_loop] in H.
    destruct (upsert_job session p) as [[[s' j'] st']|e] eqn:Hu; cbn [bind] in H;
      [|discriminate].
    destruct (upsert_job_others _ _ _ _ _ Hu) as (Hframe & Hsize & Hwr & Hkeyed).
    destruct (IH Hrest _ _ _ _ H) as (Hf & Hins & Hsz & Hw & Hk).
    assert (new_payloads s' rest = new_payloads session rest) as Hnew.
    { unfold new_payloads. apply filter_ext_in. intros q Hq.
      rewrite Hframe; [reflexivity|].
      intros Heq. apply Hp. rewrite <- Heq. now apply in_map. }
    rewrite Hnew in Hins, Hsz.
    assert (st' = Status.inserted <-> jobs session !! natural_key p = None) as Hst.
    { eapply upsert_job_inserted_iff; eauto. }
    unfold new_payloads. cbn [List.filter]. fold (new_payloads session rest).
    split; [|split; [|split; [|split]]].
    + intros key Hkey. rewrite Hf by (intros Hin; apply Hkey; now right).
      apply Hframe. intros ->. apply Hkey. now left.
    + destruct (bool_decide (jobs session !! natural_key p = None)) eqn:Hb.
      * apply bool_decide_eq_true in Hb. apply Hst in Hb. subst st'.
        cbn [length]. rewrite Nat2Z.inj_succ. simpl in Hins. lia.
      * apply bool_decide_eq_false in Hb.
        destruct st'; [exfalso; apply Hb; now apply Hst | |]; simpl in Hins; lia.
    + destruct (bool_decide (jobs session !! natural_key p = None)) eqn:Hb.
      * apply bool_decide_eq_true in Hb. apply Hst in Hb. subst st'.
        cbn [length]. rewrite Nat2Z.inj_succ. lia.
      * apply bool_decide_eq_false in Hb.
        destruct st'; [exfalso; apply Hb; now apply Hst | |]; lia.
    + destruct st'; simpl in Hw; lia.
    + auto.
Qed.

(** X8.  The effect of one [ingest] run over a feed whose postings have
    pairwise different natural keys: the inserted count is the number of
    postings whose key the table did not hold, the table grows by exactly
    that many rows, rows under keys that are not in the feed stay as they
    were, and rows keep lying under their own natural keys. *)
Theorem ingest_effect (self_source : string) (session s1 : Session)
  (payloads : list (gmap string pyval)) (r : IngestResult.t) :
  List.NoDup (map natural_key payloads) ->
  ingest self_source session payloads false = Ok (s1, r) ->
  IngestResult.inserted r = Z.of_nat (length (new_payloads session payloads))
  /\ Z.of_nat (size (jobs s1)) = Z.of_nat (size (jobs session)) + IngestResult.inserted r
  /\ (forall key, ~ In key (map natural_key payloads) ->
                  jobs s1 !! key = jobs session !! key)
  /\ (session_keyed session -> session_keyed s1).
Proof.
  unfold ingest. intros Hnd H.
  destruct (ingest_loop_effect payloads Hnd _ _ _ _ H) as (Hf & Hins & Hsz & _ & Hk).
  simpl in Hins. repeat split; auto; lia.
Qed.

End RunFacts.

Lemma upsert_job_stores_witness :
  exists n s1 j1 st1,
    @normalize_payload sample_extern lever_payload = Ok n
    /\ @upsert_job sample_extern empty_session lever_payload = Ok (s1, j1, st1)
    /\ jobs s1 !! @natural_key sample_extern lever_payload = Some j1
    /\ fields j1 = n.
Proof.
  destruct (@normalize_payload sample_extern lever_payload) as [n|e] eqn:E;
    [|vm_compute in E; discriminate].
  destruct (@upsert_job sample_extern empty_session lever_payload)
    as [[[s1 j1] st1]|e] eqn:U; [|vm_compute in U; discriminate].
  destruct (@upsert_job_stores sample_extern empty_session s1 lever_payload j1 st1 n E U)
    as (H1 & _ & _ & H2).
  exists n, s1, j1, st1. repeat split; [exact H1|]. apply H2. reflexivity.
Defined.

Lemma upsert_job_frame_witness :
  exists s1 j1 st1,
    @upsert_job sample_extern empty_session lever_payload = Ok (s1, j1, st1)
    /\ size (jobs s1)
       = (size (jobs empty_session)
          + match st1 with Status.inserted => 1 | _ => 0 end)%nat.
Proof.
  destruct (@upsert_job sample_extern empty_session lever_payload)
    as [[[s1 j1] st1]|e] eqn:U; [|vm_compute in U; discriminate].
  destruct (@upsert_job_frame sample_extern empty_session s1 lever_payload j1 st1 U)
    as (_ & H & _).
  exists s1, j1, st1. split; [reflexivity|exact H].
Defined.

Ltac distinct_keys :=
  vm_compute; constructor; [intros [H|[]]; discriminate H|];
  constructor; [intros []|constructor].


Lemma ingest_effect_witness :
  exists s1 r,
    @ingest sample_extern "lever" empty_session lever_feed false = Ok (s1, r)
    /\ IngestResult.inserted r
       = Z.of_nat (length (@new_payloads sample_extern empty_session lever_feed))
    /\ Z.of_nat (size (jobs s1))
       = Z.of_nat (size (jobs empty_session)) + IngestResult.inserted r.
Proof.
  destruct (@ingest sample_extern "lever" empty_session lever_feed false)
    as [[s1 r]|e] eqn:E; [|vm_compute in E; discriminate].
  assert (List.NoDup (map (@natural_key sample_extern) lever_feed)) as Hnd
    by distinct_keys.
  destruct (@ingest_effect sample_extern "lever" empty_session s1 lever_feed r Hnd E)
    as (H1 & H2 & _).
  exists s1, r. split; [reflexivity|]. split; assumption.
Defined.

(** ** The cascade as a whole *)

Lemma filter_comm {A : Type} (p q : A -> bool) (l : list A) :
  List.filter p (List.filter q l) = List.filter q (List.filter p l).
Proof.
  induction l as [|x l IH]; [reflexivity|]. simpl.
  destruct (p x) eqn:Hp, (q x) eqn:Hq; simpl; rewrite ?Hp, ?Hq, IH; reflexivity.
Qed.

Lemma filter_all {A : Type} (p : A -> bool) (l : list A) :
  (forall x, In x l -> p x = true) -> List.filter p l = l.
Proof.
  induction l as [|x l IH]; intros H; [reflexivity|]. simpl.
  rewrite (H x) by now left. f_equal. apply IH. intros y Hy. apply H. now right.
Qed.

Lemma filter_by_title_keywords_filter (jobs : list Candidate.t) (keywords : list string) :
  filter_by_title_keywords jobs keywords = List.filter (title_test keywords) jobs.
Proof.
  unfold filter_by_title_keywords, title_test.
  destruct (map Text.lower (_normalize keywords)) as [|k ks]; [|reflexivity].
  symmetry. now apply filter_all.
Qed.

(** X9.  The three filters of the matching run commute with each other: the
    order in which [match_all] applies them has no influence on the
    candidates that survive, nor on their order. *)
Theorem filters_commute (jobs : list Candidate.t) (allowed keywords : list string)
  (minimum : Q) :
  filter_by_min_score (filter_by_geo jobs allowed) minimum
  = filter_by_geo (filter_by_min_score jobs minimum) allowed
  /\ filter_by_title_keywords (filter_by_geo jobs allowed) keywords
     = filter_by_geo (filter_by_title_keywords jobs keywords) allowed
  /\ filter_by_title_keywords (filter_by_min_score jobs minimum) keywords
     = filter_by_min_score (filter_by_title_keywords jobs keywords) minimum.
Proof.
  rewrite !filter_by_title_keywords_filter.
  unfold filter_by_min_score, filter_by_geo. repeat split; apply filter_comm.
Qed.

Lemma title_test_iff (keywords : list string) (job : Candidate.t) :
  title_test keywords job = true
  <-> (all_blank keywords \/ has_marker keywords (Candidate.title job)).
Proof.
  unfold title_test.
  destruct (map Text.lower (_normalize keywords)) as [|k ks] eqn:E.
  - apply map_eq_nil in E. pose proof (proj1 (normalize_nil_iff keywords) E) as Hb.
    split; auto.
  - rewrite <- E, existsb_markers. split; [auto|].
    intros [Hb|H]; [|exact H].
    apply (proj2 (normalize_nil_iff keywords)) in Hb. rewrite Hb in E. discriminate.
Qed.

Lemma rank_candidates_in (settings : AppSettings) (threshold : Q)
  (job_candidates : list Candidate.t) (job : Candidate.t) :
  In job (rank_candidates settings threshold job_candidates)
  <-> In job job_candidates
      /\ (Candidate.remote job = true
          \/ has_marker (geo_filter_keywords settings) (Candidate.location job))
      /\ (threshold <= Candidate.score job)%Q
      /\ (all_blank (title_keywords settings)
          \/ has_marker (title_keywords settings) (Candidate.title job)).
Proof.
  unfold rank_candidates.
  split.
  - intros H. apply (Permutation_in _ (sort_desc_perm Candidate.score _)) in H.
    rewrite filter_by_title_keywords_filter in H.
    apply filter_In in H as [H Ht]. apply title_test_iff in Ht.
    apply filter_In in H as [H Hs]. apply Qle_bool_iff in Hs.
    apply filter_In in H as [H Hg].
    repeat split; auto.
    destruct (Candidate.remote job); [now left|]. right. now apply existsb_markers.
  - intros (Hin & Hg & Hs & Ht).
    apply (Permutation_in _ (Permutation_sym (sort_desc_perm Candidate.score _))).
    rewrite filter_by_title_keywords_filter.
    apply filter_In. split; [|now apply title_test_iff].
    apply filter_In. split; [|now apply Qle_bool_iff].
    apply filter_In. split; [exact Hin|].
    destruct (Candidate.remote job); [reflexivity|].
    destruct Hg as [Hg|Hg]; [discriminate|]. now apply existsb_markers.
Qed.


(** X11.  With no marker left after blank entries are discarded, the two
    keyword filters behave in opposite ways: [filter_by_geo] keeps the
    remote candidates only, [filter_by_title_keywords] keeps everything. *)
Theorem filter_by_geo_no_markers (jobs : list Candidate.t) (allowed_regions : list string) :
  all_blank allowed_regions ->
  filter_by_geo jobs allowed_regions = List.filter Candidate.remote jobs
  /\ filter_by_title_keywords jobs allowed_regions = jobs.
Proof.
  intros Hb. apply (proj2 (normalize_nil_iff allowed_regions)) in Hb.
  unfold filter_by_geo, filter_by_title_keywords. rewrite Hb. split; [|reflexivity].
  apply filter_ext. intros job. simpl. now destruct (Candidate.remote job).
Qed.

(** ** Ranking a ranked list *)

Lemma sort_desc_sorted_id {A : Type} (key : A -> Q) (l : list A) :
  StronglySorted (desc key) l -> sort_desc key l = l.
Proof.
  induction 1 as [|x l Hs IH Hall]; [reflexivity|].
  change (sort_desc key (x :: l)) with (insert_desc key x (sort_desc key l)).
  rewrite IH. destruct l as [|y l]; [reflexivity|]. simpl.
  apply Forall_inv in Hall. unfold desc in Hall.
  apply score_lt_false_iff in Hall. now rewrite Hall.
Qed.

(** X12.  Ranking is idempotent: filtering and sorting an already ranked
    list, with the same settings and threshold, gives the same list. *)
Theorem rank_candidates_again (settings : AppSettings) (threshold : Q)
  (job_candidates : list Candidate.t) :
  rank_candidates settings threshold
    (rank_candidates settings threshold job_candidates)
  = rank_candidates settings threshold job_candidates.
Proof.
  set (ranked := rank_candidates settings threshold job_candidates).
  assert (forall job, In job ranked ->
            In job job_candidates
            /\ (Candidate.remote job = true
                \/ has_marker (geo_filter_keywords settings) (Candidate.location job))
            /\ (threshold <= Candidate.score job)%Q
            /\ (all_blank (title_keywords settings)
                \/ has_marker (title_keywords settings) (Candidate.title job))) as Hm
    by (intros job; apply rank_candidates_in).
  unfold rank_candidates at 1. fold ranked.
  assert (filter_by_geo ranked (geo_filter_keywords settings) = ranked) as ->.
  { apply filter_all. intros job Hj. destruct (Hm job Hj) as (_ & Hg & _).
    destruct (Candidate.remote job); [reflexivity|].
    destruct Hg as [Hg|Hg]; [discriminate|]. now apply existsb_markers. }
  assert (filter_by_min_score ranked threshold = ranked) as ->.
  { apply filter_all. intros job Hj. destruct (Hm job Hj) as (_ & _ & Hs & _).
    now apply Qle_bool_iff. }
  rewrite filter_by_title_keywords_filter.
  assert (List.filter (title_test (title_keywords settings)) ranked = ranked) as ->.
  { apply filter_all. intros job Hj. destruct (Hm job Hj) as (_ & _ & _ & Ht).
    now apply title_test_iff. }
  apply sort_desc_sorted_id. apply (sort_desc_sorted Candidate.score).
Qed.

Lemma filter_by_geo_no_markers_witness :
  all_blank [""; "  "]
  /\ filter_by_geo [berlin; candidate 0 "Berlin" true ""] [""; "  "]
     = [candidate 0 "Berlin" true ""]
  /\ filter_by_title_keywords [php_developer; java_developer] [""; "  "]
     = [php_developer; java_developer].
Proof.
  assert (all_blank [""; "  "]) as H.
  { intros m [<-|[<-|[]]]; reflexivity. }
  split; [exact H|].
  destruct (filter_by_geo_no_markers [berlin; candidate 0 "Berlin" true ""] _ H)
    as (H1 & _).
  destruct (filter_by_geo_no_markers [php_developer; java_developer] _ H)
    as (_ & H2).
  split; [exact H1|exact H2].
Defined.

(** ** More on the scorer *)

Module ScorerMore.
Import Scorer.
#[local] Open Scope R_scope.









Lemma clamp01_mono (x y : R) : x <= y -> clamp01 x <= clamp01 y.
Proof.
  intros H. unfold clamp01.
  destruct (Rlt_dec x 0), (Rlt_dec y 0), (Rlt_dec 1 x), (Rlt_dec 1 y); lra.
Qed.


Section ScoreMore.
Variable tfidf : string -> string -> result (list R * list R).
Variable settings : AppSettings.

(** The parts of a returned result, for vectors that are given. *)
Lemma score_parts (job_text profile_skills : string) (keywords_list : list string)
  (jv pv : list R) (r : ScoreResult.t) :
  score tfidf settings job_text profile_skills keywords_list (Some jv) (Some pv) = Ok r ->
  exists cosine,
    cosine_similarity jv pv = Ok cosine
    /\ ScoreResult.cosine_similarity r = cosine
    /\ ScoreResult.matched_keywords r
       = _keyword_hits job_text (_normalize_keywords keywords_list)
    /\ ScoreResult.keyword_weight r
       = match _normalize_keywords keywords_list with
         | [] => 0
         | _ :: _ =>
             INR (length (_keyword_hits job_text (_normalize_keywords keywords_list)))
             / INR (length (_normalize_keywords keywords_list))
         end
    /\ ScoreResult.score r
       = clamp01 (cosine_weight settings * cosine
                  + keyword_weight settings * ScoreResult.keyword_weight r).
Proof.
  unfold score. cbn [bind fst snd].
  destruct (cosine_similarity jv pv) as [cosine|e]; cbn [bind]; [|discriminate].
  intros H. injection H as <-. exists cosine.
  cbn [ScoreResult.score ScoreResult.cosine_similarity
       ScoreResult.keyword_weight ScoreResult.matched_keywords].
  rewrite ScorerFacts.clamp01_max_min. repeat split.
Qed.


(** X16.  With a keyword weight that is not negative, and the same vectors
    and keywords, a job text that matches at least as many keywords scores
    at least as high. *)
Theorem score_monotone_in_hits (text1 text2 profile_skills : string)
  (keywords_list : list string) (jv pv : list R) (r1 r2 : ScoreResult.t) :
  0 <= keyword_weight settings ->
  score tfidf settings text1 profile_skills keywords_list (Some jv) (Some pv) = Ok r1 ->
  score tfidf settings text2 profile_skills keywords_list (Some jv) (Some pv) = Ok r2 ->
  (length (ScoreResult.matched_keywords r1)
   <= length (ScoreResult.matched_keywords r2))%nat ->
  ScoreResult.score r1 <= ScoreResult.score r2.
Proof.
  intros Hw H1 H2 Hlen.
  apply score_parts in H1 as (c1 & Hc1 & _ & Hm1 & Hk1 & Hs1).
  apply score_parts in H2 as (c2 & Hc2 & _ & Hm2 & Hk2 & Hs2).
  rewrite Hc1 in Hc2. injection Hc2 as <-.
  rewrite Hs1, Hs2. apply clamp01_mono.
  assert (ScoreResult.keyword_weight r1 <= ScoreResult.keyword_weight r2) as Hk.
  { rewrite Hk1, Hk2. rewrite Hm1, Hm2 in Hlen.
    destruct (_normalize_keywords keywords_list) as [|k ks] eqn:E; [lra|].
    rewrite <- E in *.
    assert (0 < INR (length (_normalize_keywords keywords_list))) as Hpos
      by (rewrite E; apply lt_0_INR; simpl; lia).
    apply le_INR in Hlen. unfold Rdiv.
    apply Rmult_le_compat_r; [|exact Hlen].
    apply Rlt_le. now apply Rinv_0_lt_compat. }
  nra.
Qed.

End ScoreMore.




Lemma score_example_miss :
  score no_tfidf heavy_weights "Java developer" "" ["php"; "rust"]
        (Some [0]) (Some [0])
  = Ok {| ScoreResult.score := Rmax 0 (Rmin 1 (9 / 10 * 0 + 9 / 10 * (INR 0 / INR 2)));
          ScoreResult.cosine_similarity := 0;
          ScoreResult.keyword_weight := INR 0 / INR 2;
          ScoreResult.matched_keywords := [] |}.
Proof.
  unfold score. cbn [bind fst snd].
  rewrite (ScorerFacts.cosine_similarity_zero [0] [0])
    by (left; apply ScorerFacts.norm_zero).
  reflexivity.
Qed.


Lemma score_monotone_in_hits_witness :
  exists r1 r2,
    score no_tfidf heavy_weights "Java developer" "" ["php"; "rust"]
          (Some [0]) (Some [0]) = Ok r1
    /\ score no_tfidf heavy_weights "PHP developer" "" ["php"; "rust"]
             (Some [0]) (Some [0]) = Ok r2
    /\ ScoreResult.score r1 <= ScoreResult.score r2.
Proof.
  eexists. eexists. split; [apply score_example_miss|].
  split; [apply ScorerFacts.score_example|].
  apply (score_monotone_in_hits no_tfidf heavy_weights _ _ _ _ _ _ _ _
           ltac:(simpl; lra) score_example_miss ScorerFacts.score_example).
  simpl. lia.
Defined.

End ScorerMore.

(** ** Stripping, splitting and joining *)

Module TextFacts.
Import Text.

Lemma append_nil_r (s : string) : s ++ EmptyString = s.
Proof.
  induction s as [|c s IH]; [reflexivity|].
  change (String c s ++ EmptyString) with (String c (s ++ EmptyString)). now rewrite IH.
Qed.

Lemma append_assoc (a b c : string) : (a ++ b) ++ c = a ++ (b ++ c).
Proof.
  induction a as [|x a IH]; [reflexivity|].
  change ((String x a ++ b) ++ c) with (String x ((a ++ b) ++ c)). now rewrite IH.
Qed.

Lemma rev_app_spec (s acc : string) : rev_app s acc = rev s ++ acc.
Proof.
  unfold rev. revert acc. induction s as [|c s IH]; intros acc; [reflexivity|].
  simpl. rewrite IH, (IH (String c EmptyString)), append_assoc. reflexivity.
Qed.

Lemma rev_cons (c : ascii) (s : string) : rev (String c s) = rev s ++ String c EmptyString.
Proof. unfold rev at 1. simpl. apply rev_app_spec. Qed.

Lemma rev_snoc (c : ascii) (s : string) : rev (s ++ String c EmptyString) = String c (rev s).
Proof.
  induction s as [|x s IH]; [reflexivity|].
  change (String x s ++ String c EmptyString) with (String x (s ++ String c EmptyString)).
  rewrite !rev_cons, IH. reflexivity.
Qed.

Lemma rev_involutive (s : string) : rev (rev s) = s.
Proof.
  induction s as [|c s IH]; [reflexivity|]. now rewrite rev_cons, rev_snoc, IH.
Qed.

Lemma rev_empty_iff (s : string) : rev s = EmptyString <-> s = EmptyString.
Proof.
  split; [|now intros ->]. destruct s as [|c s]; [reflexivity|].
  rewrite rev_cons. destruct (rev s); discriminate.
Qed.

Lemma lstrip_cons (c : ascii) (s : string) :
  lstrip (String c s) = if is_space c then lstrip s else String c s.
Proof.
  unfold lstrip. simpl. destruct (is_space c); [|reflexivity].
  now destruct (span is_space s).
Qed.

Lemma lstrip_snoc (u : string) (c : ascii) :
  lstrip (u ++ String c EmptyString)
  = match lstrip u with
    | EmptyString => if is_space c then EmptyString else String c EmptyString
    | w => w ++ String c EmptyString
    end.
Proof.
  induction u as [|x u IH].
  - change (EmptyString ++ String c EmptyString) with (String c EmptyString).
    rewrite lstrip_cons. destruct (is_space c); reflexivity.
  - change (String x u ++ String c EmptyString) with (String x (u ++ String c EmptyString)).
    rewrite !lstrip_cons. destruct (is_space x); [exact IH|reflexivity].
Qed.

(** [rstrip], read from the front. *)
Lemma rstrip_cons (c : ascii) (s : string) :
  rstrip (String c s)
  = match rstrip s with
    | EmptyString => if is_space c then EmptyString else String c EmptyString
    | w => String c w
    end.
Proof.
  unfold rstrip. rewrite rev_cons, lstrip_snoc.
  destruct (lstrip (rev s)) as [|x w] eqn:E.
  - destruct (is_space c); reflexivity.
  - rewrite rev_snoc. destruct (rev (String x w)) eqn:E'; [|reflexivity].
    apply (proj1 (rev_empty_iff _)) in E'. discriminate E'.
Qed.

Lemma lstrip_idem (s : string) : lstrip (lstrip s) = lstrip s.
Proof.
  induction s as [|c s IH]; [reflexivity|]. rewrite lstrip_cons.
  destruct (is_space c) eqn:E; [exact IH|]. now rewrite lstrip_cons, E.
Qed.

Lemma rstrip_idem (s : string) : rstrip (rstrip s) = rstrip s.
Proof.
  induction s as [|c s IH]; [reflexivity|]. rewrite rstrip_cons.
  destruct (rstrip s) as [|x w] eqn:E.
  - destruct (is_space c) eqn:Ec; [reflexivity|].
    rewrite rstrip_cons. change (rstrip EmptyString) with EmptyString. now rewrite Ec.
  - rewrite rstrip_cons, IH. reflexivity.
Qed.

Lemma lstrip_solid (s : string) : starts_solid (lstrip s) = true.
Proof.
  induction s as [|c s IH]; [reflexivity|]. rewrite lstrip_cons.
  destruct (is_space c) eqn:E; [exact IH|]. simpl. now rewrite E.
Qed.

Lemma lstrip_of_solid (s : string) : starts_solid s = true -> lstrip s = s.
Proof.
  destruct s as [|c s]; [reflexivity|]. simpl. intros H.
  rewrite lstrip_cons. apply negb_true_iff in H. now rewrite H.
Qed.

Lemma rstrip_solid (s : string) : starts_solid s = true -> starts_solid (rstrip s) = true.
Proof.
  destruct s as [|c s]; [reflexivity|]. simpl. intros H. apply negb_true_iff in H.
  rewrite rstrip_cons. destruct (rstrip s); rewrite ?H; simpl; now rewrite H.
Qed.

Lemma strip_idem (s : string) : strip (strip s) = strip s.
Proof.
  unfold strip.
  rewrite (lstrip_of_solid (rstrip (lstrip s))) by (apply rstrip_solid, lstrip_solid).
  apply rstrip_idem.
Qed.

Lemma lstrip_all (p : ascii -> bool) (s : string) :
  all_chars p s = true -> all_chars p (lstrip s) = true.
Proof.
  induction s as [|c s IH]; [reflexivity|]. simpl. intros H.
  apply andb_prop in H as [Hc Hs]. rewrite lstrip_cons.
  destruct (is_space c); [auto|]. simpl. now rewrite Hc, Hs.
Qed.

Lemma rstrip_all (p : ascii -> bool) (s : string) :
  all_chars p s = true -> all_chars p (rstrip s) = true.
Proof.
  induction s as [|c s IH]; [reflexivity|]. simpl. intros H.
  apply andb_prop in H as [Hc Hs]. rewrite rstrip_cons.
  specialize (IH Hs). destruct (rstrip s) as [|x w].
  - destruct (is_space c); [reflexivity|]. simpl. now rewrite Hc.
  - change (all_chars p (String c (String x w)))
      with (p c && all_chars p (String x w)). now rewrite Hc, IH.
Qed.

Lemma strip_all (p : ascii -> bool) (s : string) :
  all_chars p s = true -> all_chars p (strip s) = true.
Proof. intros H. unfold strip. now apply rstrip_all, lstrip_all. Qed.

Lemma split_on_free (p : ascii -> bool) (w : string) :
  all_chars (fun c => negb (p c)) w = true -> split_on p w = [w].
Proof.
  induction w as [|c w IH]; [reflexivity|]. simpl. intros H.
  apply andb_prop in H as [Hc Hw]. apply negb_true_iff in Hc.
  now rewrite Hc, (IH Hw).
Qed.

Lemma split_on_app (p : ascii -> bool) (w : string) (sep : ascii) (rest : string) :
  all_chars (fun c => negb (p c)) w = true -> p sep = true ->
  split_on p (w ++ String sep rest) = w :: split_on p rest.
Proof.
  intros Hw Hsep. induction w as [|c w IH].
  - simpl. now rewrite Hsep.
  - change (String c w ++ String sep rest) with (String c (w ++ String sep rest)).
    simpl in Hw. apply andb_prop in Hw as [Hc Hw]. apply negb_true_iff in Hc.
    simpl. now rewrite Hc, (IH Hw).
Qed.

Lemma split_on_pieces (p : ascii -> bool) (s w : string) :
  In w (split_on p s) -> all_chars (fun c => negb (p c)) w = true.
Proof.
  revert w. induction s as [|c s IH]; intros w.
  - simpl. intros [<-|[]]. reflexivity.
  - simpl. destruct (p c) eqn:Hc.
    + intros [<-|H]; [reflexivity|now apply IH].
    + destruct (split_on p s) as [|w0 ws] eqn:E.
      * intros [<-|[]]. simpl. now rewrite Hc.
      * intros [<-|H].
        -- simpl. rewrite Hc. simpl. apply IH. now left.
        -- apply IH. now right.
Qed.

Lemma split_on_join (p : ascii -> bool) (sep : ascii) (w : string) (ws : list string) :
  p sep = true ->
  (forall x, In x (w :: ws) -> all_chars (fun c => negb (p c)) x = true) ->
  split_on p (join (String sep EmptyString) (w :: ws)) = w :: ws.
Proof.
  intros Hsep. revert w. induction ws as [|w' ws IH]; intros w Hall.
  - simpl. apply split_on_free. apply Hall. now left.
  - change (join (String sep EmptyString) (w :: w' :: ws))
      with (w ++ String sep EmptyString ++ join (String sep EmptyString) (w' :: ws)).
    change (String sep EmptyString ++ join (String sep EmptyString) (w' :: ws))
      with (String sep (join (String sep EmptyString) (w' :: ws))).
    rewrite split_on_app; [|apply Hall; now left|exact Hsep].
    f_equal. apply IH. intros x Hx. apply Hall. now right.
Qed.

End TextFacts.

Section KeywordFacts.

Lemma strip_nonempty_clean (l : list string) :
  (forall w, In w l -> clean_keyword w) -> strip_nonempty l = l.
Proof.
  unfold strip_nonempty. induction l as [|w l IH]; intros H; [reflexivity|].
  destruct (H w (or_introl eq_refl)) as (Hne & Hs & _).
  cbn [map List.filter]. rewrite Hs.
  destruct w as [|c w]; [congruence|]. cbn [Text.nonempty].
  f_equal. apply IH. intros x Hx. apply H. now right.
Qed.

Lemma strip_nonempty_is_clean (l : list string) (w : string) :
  (forall x, In x l -> Text.all_chars (fun c => negb (is_comma c)) x = true) ->
  In w (strip_nonempty l) -> clean_keyword w.
Proof.
  unfold strip_nonempty. intros Hall Hw.
  apply filter_In in Hw as [Hin Hne]. apply in_map_iff in Hin as (x & <- & Hx).
  repeat split.
  - intros E. rewrite E in Hne. discriminate.
  - apply TextFacts.strip_idem.
  - apply TextFacts.strip_all. now apply Hall.
Qed.

Lemma split_keywords_clean (value w : string) :
  In w (_split_keywords value) -> clean_keyword w.
Proof.
  apply strip_nonempty_is_clean. intros x Hx.
  exact (TextFacts.split_on_pieces is_comma value x Hx).
Qed.

Lemma split_keywords_join (kws : list string) :
  (forall w, In w kws -> clean_keyword w) ->
  _split_keywords (Text.join "," kws) = kws.
Proof.
  intros H. unfold _split_keywords. destruct kws as [|w ws]; [reflexivity|].
  rewrite (TextFacts.split_on_join is_comma "," w ws eq_refl).
  - now apply strip_nonempty_clean.
  - intros x Hx. now destruct (H x Hx) as (_ & _ & ?).
Qed.

(** X17.  The keywords survive the trip through the profile row.  The seed
    routine stores [match_keywords] joined by commas; [match_all] splits the
    column at commas, strips the pieces and drops the empty ones.  For
    keywords that are not empty, carry no surrounding whitespace and hold no
    comma, which is what the settings loader produces, the list [match_all]
    scores with is the configured list. *)
Theorem seeded_keywords_round_trip (settings : AppSettings) :
  (forall w, In w (match_keywords settings) -> clean_keyword w) ->
  keyword_candidates (seeded_keywords settings) settings = match_keywords settings.
Proof.
  intros H. unfold keyword_candidates, seeded_keywords.
  change (strip_nonempty (Text.split_on is_comma (Text.join "," (match_keywords settings))))
    with (_split_keywords (Text.join "," (match_keywords settings))).
  rewrite (split_keywords_join _ H). now destruct (match_keywords settings).
Qed.

Lemma split_keywords_fixed_point (value : string) :
  _split_keywords (Text.join "," (_split_keywords value)) = _split_keywords value.
Proof. apply split_keywords_join. intros w. apply split_keywords_clean. Qed.

End KeywordFacts.

Section TagFacts.
Context {ext : Extern}.

(** X18.  The tags column, for tags that come as one string.  The column
    holds the stripped, non-empty pieces of the string joined by commas;
    splitting the column again gives the same pieces, and each of them is
    non-empty, stripped and free of commas. *)
Theorem normalize_payload_tags_round_trip
  (payload : gmap string pyval) (s : string) (n : NormalizedJob) :
  payload !! "tags" = Some (PyStr s) ->
  normalize_payload payload = Ok n ->
  tags n = Text.join "," (_split_keywords s)
  /\ _split_keywords (tags n) = _split_keywords s
  /\ (forall w, In w (_split_keywords (tags n)) -> clean_keyword w).
Proof.
  intros Ht.
  assert (Hg : get_or payload "tags" (PyList []) = PyStr s)
    by (unfold get_or; now rewrite Ht).
  unfold normalize_payload. rewrite Hg.
  destruct (if truthy (get payload "salary_range") then _ else _) as [sr|e];
    cbn [bind]; [|discriminate].
  destruct (if truthy sr then py_index sr 0 else Ok PyNone) as [smin|e];
    cbn [bind]; [|discriminate].
  destruct (if truthy sr then py_index sr 1 else Ok PyNone) as [smax|e];
    cbn [bind]; [|discriminate].
  intros H. injection H as <-. cbn [tags].
  change (strip_nonempty (Text.split_on is_comma s)) with (_split_keywords s).
  split; [reflexivity|]. split.
  - apply split_keywords_fixed_point.
  - intros w. apply split_keywords_clean.
Qed.

End TagFacts.

Lemma seeded_keywords_round_trip_witness :
  keyword_candidates (seeded_keywords default_settings) default_settings
  = ["wordpress"; "php"; "javascript"; "woocommerce"; "react"; "api"; "rest"].
Proof.
  apply (seeded_keywords_round_trip default_settings).
  intros w Hw. repeat destruct Hw as [<-|Hw]; try destruct Hw;
    (split; [discriminate|split; reflexivity]).
Defined.

Lemma normalize_payload_tags_round_trip_witness :
  exists n,
    @normalize_payload sample_extern tagged_payload = Ok n
    /\ _split_keywords (tags n) = ["php"; "api"; "rest"].
Proof.
  destruct (@normalize_payload sample_extern tagged_payload) as [n|e] eqn:E;
    [|vm_compute in E; discriminate].
  exists n. split; [reflexivity|].
  destruct (@normalize_payload_tags_round_trip sample_extern tagged_payload
              "php, api,,rest " n eq_refl E) as (_ & H & _).
  rewrite H. reflexivity.
Defined.

(** ** [ingest_all] *)

Section IngestAllFacts.
Context {ext : Extern}.
Variable fetch : IngestionSource -> result (list (gmap string pyval)).
Variable configured_sources : list (string * list config_entry).
Variable dry_run : bool.

Lemma build_ingestor_source (source : string) (entry : config_entry) (a : IngestionSource) :
  _build_ingestor source entry = Ok a -> adapter_source a = source.
Proof.
  unfold _build_ingestor.
  destruct (String.eqb source "greenhouse") eqn:G.
  { apply String.eqb_eq in G. subst source.
    destruct (negb _); [discriminate|]. unfold new_GreenhouseIngestion.
    destruct (urlparse _) as [[path hostname]|]; [|discriminate].
    intros H. now injection H as <-. }
  destruct (String.eqb source "lever") eqn:L.
  { apply String.eqb_eq in L. subst source.
    destruct (negb _); [discriminate|]. unfold new_LeverIngestion.
    intros H. now injection H as <-. }
  destruct (String.eqb source "workday") eqn:W; [|discriminate].
  apply String.eqb_eq in W. subst source.
  destruct (negb _); [discriminate|]. unfold new_WorkdayIngestion.
  destruct (urlparse _) as [[path hostname]|]; [|discriminate].
  intros H. now injection H as <-.
Qed.

(** One turn: the summary carries the source of the entry, one adapter is
    logged, and a dry run leaves the session alone. *)
Lemma ingest_entry_ok (source : string) (entry : config_entry)
  (session s1 : Session) (r : IngestResult.t) (log log1 : list IngestionSource) :
  ingest_entry fetch source entry dry_run session log = (Ok (s1, r), log1) ->
  IngestResult.source r = source
  /\ (exists a, log1 = (log ++ [a])%list /\ adapter_source a = source)
  /\ (dry_run = true -> s1 = session).
Proof.
  unfold ingest_entry.
  destruct (_build_ingestor source entry) as [a|e] eqn:B; [|discriminate].
  apply build_ingestor_source in B.
  destruct (fetch a) as [payloads|e]; cbn [bind]; [|discriminate].
  intros H. injection H as H <-. unfold ingest in H.
  split; [|split].
  - apply ingest_loop_counts in H as (_ & _ & Hs). rewrite Hs. exact B.
  - exists a. split; [reflexivity|exact B].
  - intros ->. rewrite ingest_loop_dry_run in H. now injection H as <- _.
Qed.

Lemma ingest_entries_ok (source : string) (entries : list config_entry) :
  forall (session s1 : Session) (results results1 : list IngestResult.t)
         (log log1 : list IngestionSource),
    ingest_entries fetch dry_run source entries session results log
    = (Ok (s1, results1), log1) ->
    map IngestResult.source results1
    = (map IngestResult.source results ++ map (fun _ => source) entries)%list
    /\ map adapter_source log1
       = (map adapter_source log ++ map (fun _ => source) entries)%list
    /\ (dry_run = true -> s1 = session).
Proof.
  induction entries as [|entry rest IH]; intros session s1 results results1 log log1 H.
  - cbn in H. injection H as <- <- <-. cbn [map]. rewrite !app_nil_r. auto.
  - cbn [ingest_entries] in H.
    destruct (ingest_entry fetch source entry dry_run session log)
      as [[[s' r]|e] log'] eqn:E; [|discriminate].
    apply ingest_entry_ok in E as (Hs & (a & -> & Ha) & Hd).
    apply IH in H as (H1 & H2 & H3).
    rewrite H1, H2, !map_app. cbn [map]. rewrite Hs, Ha, <- !app_assoc.
    repeat split; try reflexivity.
    intros Hdry. rewrite (H3 Hdry). now apply Hd.
Qed.

Lemma ingest_targets_ok (targets : list string) :
  forall (session s1 : Session) (results results1 : list IngestResult.t)
         (log log1 : list IngestionSource),
    ingest_targets fetch configured_sources dry_run targets session results log
    = (Ok (s1, results1), log1) ->
    map IngestResult.source results1
    = (map IngestResult.source results ++ expected_labels configured_sources targets)%list
    /\ map adapter_source log1
       = (map adapter_source log ++ expected_labels configured_sources targets)%list
    /\ (dry_run = true -> s1 = session).
Proof.
  induction targets as [|source rest IH]; intros session s1 results results1 log log1 H.
  - cbn in H. injection H as <- <- <-. cbn. rewrite !app_nil_r. auto.
  - cbn [ingest_targets] in H.
    destruct (ingest_entries fetch dry_run source _ session results log)
      as [[[s' results']|e] log'] eqn:E; [|discriminate].
    apply ingest_entries_ok in E as (E1 & E2 & E3).
    apply IH in H as (H1 & H2 & H3).
    rewrite H1, H2, E1, E2. unfold expected_labels. cbn [flat_map].
    rewrite <- !app_assoc. repeat split; try reflexivity.
    intros Hdry. rewrite (H3 Hdry). now apply E3.
Qed.

Lemma ingest_targets_unconfigured (targets : list string) :
  (forall source, In source targets -> dict_get configured_sources source [] = []) ->
  forall session results log,
    ingest_targets fetch configured_sources dry_run targets session results log
    = (Ok (session, results), log).
Proof.
  induction targets as [|source rest IH]; intros H session results log; [reflexivity|].
  cbn [ingest_targets]. rewrite (H source (or_introl eq_refl)). cbn [ingest_entries].
  apply IH. intros s Hs. apply H. now right.
Qed.

(** X19.  When [ingest_all] returns, it reports one summary for every entry
    configured under a target, in the order of the targets and of their
    entries, each labelled with its target's source, and exactly those
    adapters were asked to fetch.  Targets without configured entries are
    passed over in silence: if no target has an entry, no adapter is built,
    nothing is fetched, the list of summaries is empty and the database is
    as it was. *)
Theorem ingest_all_summaries (sources : list string) (session s1 : Session)
  (results : list IngestResult.t) (log : list IngestionSource) :
  ingest_all fetch configured_sources dry_run sources session = (s1, Ok results, log) ->
  map IngestResult.source results
  = expected_labels configured_sources (ingest_targets_of configured_sources sources)
  /\ map adapter_source log
     = expected_labels configured_sources (ingest_targets_of configured_sources sources)
  /\ ((forall source, In source (ingest_targets_of configured_sources sources) ->
         dict_get configured_sources source [] = []) ->
      results = [] /\ log = [] /\ s1 = session).
Proof.
  unfold ingest_all, session_scope.
  destruct (ingest_targets fetch configured_sources dry_run _ session [] [])
    as [[[s' results']|e] log'] eqn:E; cbn [fst snd]; [|discriminate].
  intros H. injection H as <- <- <-.
  pose proof (ingest_targets_ok _ _ _ _ _ _ _ E) as (H1 & H2 & _).
  split; [exact H1|]. split; [exact H2|].
  intros Hun. rewrite (ingest_targets_unconfigured _ Hun) in E.
  injection E as <- <- <-. auto.
Qed.

(** X20.  [ingest_all] is all or nothing.  Every entry shares the one
    session of the run, so when any adapter cannot be built, any fetch
    fails or any posting cannot be stored, the exception leaves the session
    scope, the session is rolled back and the database is as it was before
    the run, whatever earlier entries had written.  A dry run leaves the
    database as it was in any case. *)
Theorem ingest_all_atomic (sources : list string) (session s1 : Session)
  (outcome : result (list IngestResult.t)) (log : list IngestionSource) :
  ingest_all fetch configured_sources dry_run sources session = (s1, outcome, log) ->
  dry_run = true \/ ~ returns outcome ->
  s1 = session.
Proof.
  unfold ingest_all, session_scope.
  destruct (ingest_targets fetch configured_sources dry_run _ session [] [])
    as [[[s' results']|e] log'] eqn:E; cbn [fst snd].
  - intros H. injection H as <- <- <-. intros [Hdry|Hraise].
    + now apply (ingest_targets_ok _ _ _ _ _ _ _ E).
    + destruct Hraise. exact I.
  - intros H _. now injection H as <- _ _.
Qed.

End IngestAllFacts.

Lemma ingest_all_summaries_witness :
  exists s1 results log,
    @ingest_all sample_extern sample_fetch sample_sources false ["lever"] empty_session
    = (s1, Ok results, log)
    /\ map IngestResult.source results = ["lever"; "lever"].
Proof.
  destruct (@ingest_all sample_extern sample_fetch sample_sources false ["lever"]
              empty_session) as [[s1 [results|e]] log] eqn:E;
    [|vm_compute in E; discriminate].
  exists s1, results, log. split; [reflexivity|].
  destruct (@ingest_all_summaries sample_extern sample_fetch sample_sources false
              ["lever"] empty_session s1 results log E) as (H & _).
  exact H.
Defined.

Lemma ingest_all_atomic_witness :
  exists msg log,
    @ingest_all sample_extern sample_fetch sample_sources false [] empty_session
    = (empty_session, Raise (ValueError msg), log)
    /\ length log = 2%nat.
Proof.
  destruct (@ingest_all sample_extern sample_fetch sample_sources false []
              empty_session) as [[s1 outcome] log] eqn:E.
  assert (outcome = Raise (ValueError "Workday configuration requires a search URL")
          /\ length log = 2%nat) as [-> Hlog].
  { vm_compute in E. injection E as _ <- <-. split; reflexivity. }
  rewrite (@ingest_all_atomic sample_extern sample_fetch sample_sources false []
             empty_session s1 _ log E (or_intror (fun H => H))).
  eauto.
Defined.

(** ** Trailing slashes of a Greenhouse board URL *)

Section GreenhouseFacts.
Context {ext : Extern}.

Lemma rstrip_char_snoc (c : ascii) (s : string) :
  Text.rstrip_char c (s ++ String c EmptyString) = Text.rstrip_char c s.
Proof.
  unfold Text.rstrip_char. rewrite TextFacts.rev_snoc. cbn [Text.span].
  rewrite Ascii.eqb_refl. now destruct (Text.span (Ascii.eqb c) (Text.rev s)).
Qed.

(** X21.  A trailing slash on a Greenhouse board URL makes no difference:
    the constructor, and the builder of the task for a non-empty URL, give
    the same adapter, with the same board URL and company, for the URL with
    and without it. *)
Theorem greenhouse_trailing_slash (board_url : string) :
  new_GreenhouseIngestion (board_url ++ "/") = new_GreenhouseIngestion board_url
  /\ (board_url <> EmptyString ->
      _build_ingestor "greenhouse" (EntryStr (board_url ++ "/"))
      = _build_ingestor "greenhouse" (EntryStr board_url)).
Proof.
  assert (new_GreenhouseIngestion (board_url ++ "/") = new_GreenhouseIngestion board_url)
    as H by (unfold new_GreenhouseIngestion; now rewrite rstrip_char_snoc).
  split; [exact H|]. intros Hne. unfold _build_ingestor.
  cbn [String.eqb Ascii.eqb entry_param truthy py_str].
  change (String.eqb "greenhouse" "greenhouse") with true. cbv iota.
  destruct board_url as [|c rest]; [congruence|].
  change (String c rest ++ "/") with (String c (rest ++ "/")).
  cbn [Text.nonempty negb]. exact H.
Qed.

End GreenhouseFacts.

(** ** The command line and the task build the same adapters *)

Section CliFacts.
Context {ext : Extern}.

(** X22.  The command line builds the adapter the task would build from
    the same argument, as long as the argument is not empty.  With an empty
    company handle the two differ: the task raises [ValueError], the
    command line builds a Lever adapter for the empty handle. *)
Theorem resolve_ingestor_agrees (args : Namespace.t) :
  (cli_param args <> EmptyString ->
   _resolve_ingestor args
   = _build_ingestor (Namespace.source args) (EntryStr (cli_param args)))
  /\ (Namespace.source args = "lever" -> Namespace.company args = EmptyString ->
      _resolve_ingestor args = Ok (LeverIngestion EmptyString)
      /\ exists msg,
           _build_ingestor (Namespace.source args) (EntryStr (cli_param args))
           = Raise (ValueError msg)).
Proof.
  split.
  - unfold _resolve_ingestor, _build_ingestor, cli_param.
    destruct (String.eqb (Namespace.source args) "greenhouse");
      [|destruct (String.eqb (Namespace.source args) "lever");
        [|destruct (String.eqb (Namespace.source args) "workday")]];
      cbn [entry_param truthy py_str]; intros Hp; try reflexivity.
    + destruct (Namespace.board args); [congruence|reflexivity].
    + destruct (Namespace.company args); [congruence|reflexivity].
    + destruct (Namespace.url args); [congruence|reflexivity].
  - intros Hs Hc. unfold _resolve_ingestor, _build_ingestor, cli_param.
    rewrite Hs, Hc. cbn. eauto.
Qed.

End CliFacts.

Lemma resolve_ingestor_agrees_witness :
  @_resolve_ingestor sample_extern
    {| Namespace.source := "greenhouse";
       Namespace.board := "https://boards.greenhouse.io/acme/";
       Namespace.company := EmptyString; Namespace.url := EmptyString |}
  = @_build_ingestor sample_extern "greenhouse"
      (EntryStr "https://boards.greenhouse.io/acme/").
Proof.
  apply (proj1 (@resolve_ingestor_agrees sample_extern
                  {| Namespace.source := "greenhouse";
                     Namespace.board := "https://boards.greenhouse.io/acme/";
                     Namespace.company := EmptyString;
                     Namespace.url := EmptyString |})).
  discriminate.
Defined.

(** ** The fetch loop and its limit *)

Section FetchLoopFacts.
Context {J P : Type}.
Variable shape : J -> Fetch.outcome P.

Lemma fetch_loop_done (limit : option Z) (jobs : list J) :
  forall (acc out : list P),
    fetch_loop shape limit jobs acc = Fetch.Done out ->
    exists items,
      out = (acc ++ items)%list
      /\ map Fetch.Done items = map shape (firstn (length items) jobs)
      /\ Z.of_nat (length items)
         = match limit with
           | None => Z.of_nat (length jobs)
           | Some l =>
               Z.min (Z.of_nat (length jobs)) (Z.max 1 (l - Z.of_nat (length acc)))
           end.
Proof.
  induction jobs as [|job rest IH]; intros acc out H.
  - cbn in H. injection H as <-. exists []. rewrite app_nil_r.
    split; [reflexivity|]. split; [reflexivity|]. cbn. destruct limit; lia.
  - cbn [fetch_loop] in H. destruct (shape job) as [item|e] eqn:Hshape; [|discriminate].
    assert (length (acc ++ [item]) = S (length acc)) as Hlen
      by (rewrite length_app; cbn; lia).
    destruct (match limit with
              | Some l => l <=? Z.of_nat (length (acc ++ [item]))
              | None => false end) eqn:Stop.
    + injection H as <-. exists [item]. split; [reflexivity|].
      split; [cbn; now rewrite Hshape|].
      destruct limit as [l|]; [|discriminate]. apply Z.leb_le in Stop.
      rewrite Hlen in Stop. cbn [length]. lia.
    + apply IH in H as (items & -> & Hmap & Hcount).
      exists (item :: items). rewrite <- app_assoc. split; [reflexivity|].
      split; [cbn; now rewrite Hshape, Hmap|].
      destruct limit as [l|].
      * apply Z.leb_gt in Stop. rewrite Hlen in *. cbn [length]. lia.
      * cbn [length]. lia.
Qed.

Lemma fetch_loop_failed (limit : option Z) (jobs : list J) :
  forall (acc : list P) (e : Fetch.error),
    fetch_loop shape limit jobs acc = Fetch.Failed e ->
    exists job, In job jobs /\ shape job = Fetch.Failed e.
Proof.
  induction jobs as [|job rest IH]; intros acc e H; [discriminate|].
  cbn [fetch_loop] in H. destruct (shape job) as [item|e'] eqn:Hshape.
  - destruct (match limit with
              | Some l => l <=? Z.of_nat (length (acc ++ [item]))
              | None => false end); [discriminate|].
    apply IH in H as (j & Hin & Hj). exists j. split; [now right|exact Hj].
  - injection H as <-. exists job. split; [now left|exact Hshape].
Qed.

End FetchLoopFacts.

Section WorkdayFacts.
Context {ext : Extern}.
Variable http_get_json : string -> option pyval.

(** X23.  The number of postings the Workday [fetch] emits from a public
    endpoint: all postings of the feed without a limit, and with a limit
    [l] as many as [max 1 l], if the feed has that many.  The test of the
    limit follows the append, so a limit of zero or less still lets one
    posting through.  The emitted payloads are the first postings of the
    feed, shaped in order; postings past the cut are never looked at. *)
Theorem workday_fetch_limit (search_url company path : string) (hostname : option string)
  (limit : option Z) (payload : pyval) (jobs : list pyval)
  (out : list (gmap string pyval)) :
  urlparse search_url = Some (path, hostname) ->
  _is_public path = true ->
  http_get_json search_url = Some payload ->
  py_iter (job_postings payload) = Ok jobs ->
  workday_fetch http_get_json search_url company limit = Fetch.Done out ->
  Z.of_nat (length out) = emitted limit (length jobs)
  /\ map Fetch.Done out = map (workday_payload company) (firstn (length out) jobs).
Proof.
  intros Hu Hp Hh Hj. unfold workday_fetch. rewrite Hu, Hp, Hh, Hj. cbn [negb].
  intros H. apply fetch_loop_done in H as (items & -> & Hmap & Hcount).
  cbn [app]. split; [|exact Hmap].
  rewrite Hcount. unfold emitted. destruct limit; cbn [length]; lia.
Qed.

(** X24.  What the Workday [fetch] does with what it does not recognise.  A
    search URL that is not a public endpoint gives no postings, without a
    request; so does a response that is no mapping or has no [jobPostings]
    entry.  When [fetch] raises, it is the transport or the decoder that
    failed, or [jobPostings] cannot be iterated ([TypeError]), or a posting
    or its [jobPostingInfo] is no mapping ([AttributeError]). *)
Theorem workday_fetch_unrecognised (search_url company path : string)
  (hostname : option string) (limit : option Z) :
  urlparse search_url = Some (path, hostname) ->
  (_is_public path = false ->
   workday_fetch http_get_json search_url company limit = Fetch.Done [])
  /\ (forall payload,
        http_get_json search_url = Some payload ->
        (forall p, payload = PyDict p -> p !! "jobPostings" = None) ->
        workday_fetch http_get_json search_url company limit = Fetch.Done [])
  /\ (forall e,
        workday_fetch http_get_json search_url company limit = Fetch.Failed e ->
        e = Fetch.TransportError \/ e = Fetch.Raised TypeError
        \/ e = Fetch.AttributeError).
Proof.
  intros Hu. unfold workday_fetch. rewrite Hu. split; [|split].
  - intros ->. reflexivity.
  - intros payload Hh Hshape. destruct (negb (_is_public path)); [reflexivity|].
    rewrite Hh. assert (job_postings payload = PyList []) as ->.
    { destruct payload; try reflexivity. unfold job_postings, get_or.
      now rewrite (Hshape _ eq_refl). }
    reflexivity.
  - intros e. destruct (negb (_is_public path)); [discriminate|].
    destruct (http_get_json search_url) as [payload|];
      [|intros H; injection H as <-; auto].
    destruct (py_iter (job_postings payload)) as [jobs|e'] eqn:Hj.
    + intros H. apply fetch_loop_failed in H as (job & _ & H).
      right. right. unfold workday_payload in H.
      destruct job; try (now injection H as <-).
      destruct (get_or m "jobPostingInfo" (PyDict ∅)); try (now injection H as <-).
      discriminate.
    + intros H. injection H as <-. right. left. f_equal.
      unfold py_iter in Hj. destruct (job_postings payload); congruence.
Qed.

End WorkdayFacts.

Lemma workday_fetch_limit_witness :
  exists out,
    @workday_fetch sample_extern workday_response workday_url "acme" (Some 0)
    = Fetch.Done out
    /\ Z.of_nat (length out) = 1.
Proof.
  destruct (@workday_fetch sample_extern workday_response workday_url "acme" (Some 0))
    as [out|e] eqn:E; [|vm_compute in E; discriminate].
  exists out. split; [reflexivity|].
  destruct (@workday_fetch_limit sample_extern workday_response workday_url "acme"
              workday_url None (Some 0) _
              [workday_posting "1"; workday_posting "2"; PyStr "?"] out
              eq_refl eq_refl eq_refl eq_refl E) as (H & _).
  exact H.
Defined.

Lemma workday_fetch_unrecognised_witness :
  @workday_fetch sample_extern workday_response "https://example.com/careers" "acme" None
  = Fetch.Done [].
Proof.
  destruct (@workday_fetch_unrecognised sample_extern workday_response
              "https://example.com/careers" "acme" "https://example.com/careers"
              None None eq_refl) as (H & _).
  apply H. reflexivity.
Defined.

(** ** The match records *)

Section MatchFacts.
Variable format_2f : Q -> string.
Variable profile_id : Z.

Lemma match_of_rescore (j p j' p' : Z) (s : Q) (r : string) (m : Match.t) :
  match_of j' p' (rescore j p s r m) = match_of j' p' m.
Proof. unfold rescore. destruct (match_of j p m); reflexivity. Qed.

Lemma filter_map_rescore (j p j' p' : Z) (s : Q) (r : string) (matches : list Match.t) :
  List.filter (match_of j' p') (map (rescore j p s r) matches)
  = map (rescore j p s r) (List.filter (match_of j' p') matches).
Proof.
  induction matches as [|m matches IH]; [reflexivity|].
  cbn [map List.filter]. rewrite match_of_rescore.
  destruct (match_of j' p' m); cbn [map]; now rewrite IH.
Qed.

Lemma unique_pairs_rescore (j p : Z) (s : Q) (r : string) (matches : list Match.t) :
  unique_pairs matches -> unique_pairs (map (rescore j p s r) matches).
Proof.
  intros H j' p'. rewrite filter_map_rescore, length_map. apply H.
Qed.

Lemma match_of_pair (j p j' p' : Z) (s : Q) (r : string) :
  match_of j' p' {| Match.job_id := j; Match.profile_id := p;
                    Match.score := s; Match.reason := r |} = true ->
  j' = j /\ p' = p.
Proof.
  unfold match_of. cbn. intros H. apply andb_prop in H as [H1 H2].
  apply Z.eqb_eq in H1, H2. auto.
Qed.

Lemma unique_pairs_add (j p : Z) (s : Q) (r : string) (matches : list Match.t) :
  unique_pairs matches ->
  List.filter (match_of j p) matches = [] ->
  unique_pairs (matches ++ [{| Match.job_id := j; Match.profile_id := p;
                               Match.score := s; Match.reason := r |}]).
Proof.
  intros H Hnone j' p'. rewrite List.filter_app, length_app. cbn [List.filter].
  destruct (match_of j' p' _) eqn:E.
  - apply match_of_pair in E as [-> ->]. rewrite Hnone. cbn. lia.
  - cbn [length]. specialize (H j' p'). lia.
Qed.

(** A row that no later candidate concerns stays in the table. *)
Lemma rescore_other (j p : Z) (s : Q) (r : string) (m : Match.t) :
  match_of j p m = false -> rescore j p s r m = m.
Proof. unfold rescore. now intros ->. Qed.

Lemma write_matches_spec (ranked : list Candidate.t) :
  forall (matches : list Match.t) (written : Z),
    unique_pairs matches ->
    List.NoDup (job_ids ranked) ->
    exists matches',
      write_matches format_2f profile_id ranked matches written
      = Some (matches', written + Z.of_nat (length ranked))
      /\ unique_pairs matches'
      /\ (forall item, In item ranked ->
            In {| Match.job_id := id (Candidate.job item);
                  Match.profile_id := profile_id;
                  Match.score := Candidate.score item;
                  Match.reason := match_reason format_2f item |} matches')
      /\ (forall m, In m matches ->
            Match.profile_id m <> profile_id \/ ~ In (Match.job_id m) (job_ids ranked) ->
            In m matches')
      /\ (length matches <= length matches')%nat.
Proof.
  induction ranked as [|item rest IH]; intros matches written Hu Hnd.
  - exists matches. cbn. rewrite Z.add_0_r. repeat split; auto. intros item [].
  - cbn [job_ids map] in Hnd. apply List.NoDup_cons_iff in Hnd as [Hfresh Hnd].
    fold (job_ids rest) in Hfresh, Hnd.
    cbn [write_matches length]. rewrite Nat2Z.inj_succ.
    set (j := id (Candidate.job item)) in *.
    pose proof (Hu j profile_id) as Hone.
    destruct (List.filter (match_of j profile_id) matches) as [|m0 [|m1 more]] eqn:F;
      cbn [one_or_none]; [| |cbn in Hone; lia].
    + (* a new row *)
      destruct (IH (matches ++ [{| Match.job_id := j; Match.profile_id := profile_id;
                                   Match.score := Candidate.score item;
                                   Match.reason := match_reason format_2f item |}])%list
                   (written + 1) (unique_pairs_add _ _ _ _ _ Hu F) Hnd)
        as (matches' & Hw & Hu' & Hin & Hframe & Hlen).
      exists matches'. split; [rewrite Hw; do 2 f_equal; lia|].
      split; [exact Hu'|]. split; [|split].
      * intros it [<-|Hit]; [|now apply Hin].
        apply Hframe; [apply in_or_app; right; now left|].
        right. exact Hfresh.
      * intros m Hm Hside. apply Hframe; [apply in_or_app; now left|].
        destruct Hside as [Hp|Hj]; [now left|]. right. intros Hr. apply Hj. now right.
      * rewrite length_app in Hlen. cbn in Hlen. lia.
    + (* the row of the pair is rescored *)
      destruct (IH (map (rescore j profile_id (Candidate.score item)
                           (match_reason format_2f item)) matches)
                   (written + 1) (unique_pairs_rescore _ _ _ _ _ Hu) Hnd)
        as (matches' & Hw & Hu' & Hin & Hframe & Hlen).
      exists matches'. split; [rewrite Hw; do 2 f_equal; lia|].
      split; [exact Hu'|]. split; [|split].
      * intros it [<-|Hit]; [|now apply Hin].
        assert (In m0 (List.filter (match_of j profile_id) matches)) as Hm0
          by (rewrite F; now left).
        apply filter_In in Hm0 as [Hm0 Hpair].
        apply Hframe; [|right; exact Hfresh].
        apply in_map_iff. exists m0. split; [|exact Hm0].
        unfold rescore. rewrite Hpair.
        unfold match_of in Hpair. apply andb_prop in Hpair as [Hj Hp].
        apply Z.eqb_eq in Hj, Hp. now rewrite Hj, Hp.
      * intros m Hm Hside. apply Hframe.
        -- apply in_map_iff. exists m. split; [|exact Hm]. apply rescore_other.
           unfold match_of. destruct Hside as [Hp|Hj].
           ++ apply andb_false_iff. right. now apply Z.eqb_neq.
           ++ apply andb_false_iff. left. apply Z.eqb_neq. intros E. apply Hj.
              left. symmetry. exact E.
        -- cbn. destruct Hside as [Hp|Hj]; [now left|]. right. intros Hr. apply Hj. now right.
      * rewrite length_map in Hlen. exact Hlen.
Qed.

(** X25.  The match records [match_all] writes.  If the table holds at most
    one row for every pair of a job and a profile, and the ranked
    candidates are different jobs, the loop never raises and counts one
    write per candidate; the table still holds at most one row per pair;
    every candidate has its row, with its score and its reason; and no row
    is ever removed: the rows of other profiles, and of jobs that are not
    among the candidates, stay as they are. *)
Theorem write_matches_keeps_pairs_unique (ranked : list Candidate.t)
  (matches : list Match.t) :
  unique_pairs matches ->
  List.NoDup (job_ids ranked) ->
  exists matches',
    write_matches format_2f profile_id ranked matches 0
    = Some (matches', Z.of_nat (length ranked))
    /\ unique_pairs matches'
    /\ (forall item, In item ranked ->
          In {| Match.job_id := id (Candidate.job item);
                Match.profile_id := profile_id;
                Match.score := Candidate.score item;
                Match.reason := match_reason format_2f item |} matches')
    /\ (forall m, In m matches ->
          Match.profile_id m <> profile_id \/ ~ In (Match.job_id m) (job_ids ranked) ->
          In m matches')
    /\ (length matches <= length matches')%nat.
Proof. intros Hu Hnd. exact (write_matches_spec ranked matches 0 Hu Hnd). Qed.

(** X26.  If the table holds two or more rows for the pair of the profile
    and one of the ranked candidates, the loop of [match_all] raises
    ([MultipleResultsFound], from [one_or_none]). *)
Theorem write_matches_duplicate_raises (ranked : list Candidate.t) :
  forall (matches : list Match.t) (written : Z),
    (exists item,
       In item ranked
       /\ (2 <= length (List.filter (match_of (id (Candidate.job item)) profile_id)
                                    matches))%nat) ->
    write_matches format_2f profile_id ranked matches written = None.
Proof.
  induction ranked as [|head rest IH]; intros matches written (item & Hin & Hcount).
  - destruct Hin.
  - cbn [write_matches].
    destruct (List.filter (match_of (id (Candidate.job head)) profile_id) matches)
      as [|m0 [|m1 more]] eqn:F; cbn [one_or_none]; [| |reflexivity].
    + apply IH. destruct Hin as [<-|Hin]; [rewrite F in Hcount; cbn in Hcount; lia|].
      exists item. split; [exact Hin|]. rewrite List.filter_app, length_app. lia.
    + apply IH. destruct Hin as [<-|Hin]; [rewrite F in Hcount; cbn in Hcount; lia|].
      exists item. split; [exact Hin|]. now rewrite filter_map_rescore, length_map.
Qed.

End MatchFacts.

Lemma write_matches_keeps_pairs_unique_witness :
  exists matches',
    write_matches sample_format_2f 1 [php_developer] [stale_match] 0
    = Some (matches', 1)
    /\ In stale_match matches'.
Proof.
  assert (unique_pairs [stale_match]) as Hu.
  { intros j p. cbn. destruct (match_of j p stale_match); cbn; lia. }
  assert (List.NoDup (job_ids [php_developer])) as Hnd.
  { constructor; [intros []|constructor]. }
  destruct (write_matches_keeps_pairs_unique sample_format_2f 1 [php_developer]
              [stale_match] Hu Hnd) as (matches' & Hw & _ & _ & Hframe & _).
  exists matches'. split; [exact Hw|].
  apply Hframe; [now left|]. right. cbn. intros [H|[]]. discriminate H.
Defined.

Lemma write_matches_duplicate_raises_witness :
  write_matches sample_format_2f 1 [php_developer]
    [{| Match.job_id := 0; Match.profile_id := 1; Match.score := 0%Q;
        Match.reason := EmptyString |};
     {| Match.job_id := 0; Match.profile_id := 1; Match.score := 1%Q;
        Match.reason := EmptyString |}] 0
  = None.
Proof.
  apply (write_matches_duplicate_raises sample_format_2f 1 [php_developer]).
  exists php_developer. split; [now left|]. cbn. lia.
Defined.
